(** * FLOSS string recovery: blob-string splitting, wide-string repair,
      false-positive filter and tightstring exclusion

    A shallow embedding of
      - [floss/language/rust/extract.py]  (blob string engine),
      - [floss/utils.py]                  (FP filter, [extract_strings]),
      - [floss/tightstrings.py]           (tightstring engine),
    followed by the properties established for them.

    Python [str] values are lists of code points, [bytes] values lists of
    octets, Python [int]s are [Z].  Sets of texts are [gset]s. *)

From Stdlib Require Import ZArith NArith Lia Ascii String.
From stdpp Require Import gmap list.

Local Open Scope Z_scope.

(** ** Python values *)

Module Py.

(** A code point of a [str]. *)
Definition char := N.
Definition str := list char.
(** An octet of a [bytes] object. *)
Definition byte := N.
Definition bytes := list byte.

(** Reading an ASCII literal as a [str]. *)
Definition lit (s : String.string) : str :=
  map N_of_ascii (list_ascii_of_string s).

(** [len(x)] *)
Definition len {A} (l : list A) : Z := Z.of_nat (length l).

(** A slice bound as Python normalises it: a negative bound counts from
    the end, and every bound is clamped to [0, len]. *)
Definition bound {A} (l : list A) (i : Z) : nat :=
  Z.to_nat (if i <? 0 then Z.max 0 (i + len l) else i).

(** [l[i:]] *)
Definition slice_from {A} (l : list A) (i : Z) : list A := skipn (bound l i) l.

(** [l[0:j]] *)
Definition slice_to {A} (l : list A) (j : Z) : list A := firstn (bound l j) l.

(** [b.startswith(a)] *)
Fixpoint starts_with (a b : str) : bool :=
  match a, b with
  | [], _ => true
  | x :: a', y :: b' => N.eqb x y && starts_with a' b'
  | _ :: _, [] => false
  end.

(** [a in b] on [str]: [a] occurs as a contiguous run of [b]. *)
Fixpoint contains (a b : str) : bool :=
  starts_with a b ||
  match b with
  | [] => false
  | _ :: b' => contains a b'
  end.

(** [s.replace(c, "")] for a one-character [c]. *)
Definition remove_char (c : char) (s : str) : str :=
  List.filter (fun x => negb (N.eqb x c)) s.

(** [list.remove(x)] reached only when [x] is known to be present, and the
    scan that precedes it in [split_strings]: the first element equal to
    [x] is deleted, a list without [x] is left alone. *)
Fixpoint remove_first {A} `{EqDecision A} (x : A) (l : list A) : list A :=
  match l with
  | [] => []
  | y :: t => if decide (y = x) then t else y :: remove_first x t
  end.

(** What a call does: it returns a value or an exception leaves it. *)
Inductive exn := IndexError.

Inductive result (A : Type) :=
| Ok (a : A)
| Raise (e : exn).
Arguments Ok {A} a.
Arguments Raise {A} e.

End Py.

Import Py.

(** ** [floss.results] *)

Module Results.

Inductive StringEncoding := ASCII | UTF16LE | UTF8.

(** [StaticString(string, offset, encoding)], compared field by field. *)
Record StaticString := mkStaticString {
  ss_string : str;
  ss_offset : Z;
  ss_encoding : StringEncoding
}.

#[export] Instance StringEncoding_eq_dec : EqDecision StringEncoding.
Proof. solve_decision. Defined.

#[export] Instance StaticString_eq_dec : EqDecision StaticString.
Proof. solve_decision. Defined.

(** [TightString(function, string, encoding, program_counter,
    stack_pointer, original_stack_pointer, offset, frame_offset)] *)
Record TightString := mkTightString {
  ts_function : Z;
  ts_string : str;
  ts_encoding : StringEncoding;
  ts_program_counter : Z;
  ts_stack_pointer : Z;
  ts_original_stack_pointer : Z;
  ts_offset : Z;
  ts_frame_offset : Z
}.

End Results.

Import Results.

(** ** [floss/language/rust/extract.py]: [split_strings] *)

Module RustSplit.

(** The test [string.offset < address < string.offset + len(string.string)]. *)
Definition inside (address : Z) (string : StaticString) : bool :=
  (ss_offset string <? address) &&
  (address <? ss_offset string + len (ss_string string)).

(** The body run for the first element that contains [address]: append the
    parts that are long enough, delete the element, return. *)
Definition split_at (static_strings : list StaticString)
    (string : StaticString) (address min_length : Z) : list StaticString :=
  let rust_string := slice_to (ss_string string) (address - ss_offset string) in
  let rest := slice_from (ss_string string) (address - ss_offset string) in
  let l1 :=
    if min_length <=? len rust_string
    then static_strings ++ [mkStaticString rust_string (ss_offset string) UTF8]
    else static_strings in
  let l2 :=
    if min_length <=? len rest
    then l1 ++ [mkStaticString rest address UTF8]
    else l1 in
  remove_first string l2.

(** The [for string in static_strings] loop; [pending] is what the iterator
    has not visited yet, [static_strings] the list object (unchanged until
    the first hit, after which the function returns). *)
Fixpoint split_strings_loop (pending static_strings : list StaticString)
    (address min_length : Z) : list StaticString :=
  match pending with
  | [] => static_strings
  | string :: pending' =>
      if inside address string
      then split_at static_strings string address min_length
      else split_strings_loop pending' static_strings address min_length
  end.

(** [split_strings(static_strings, address, min_length)]: the list object
    after the call. *)
Definition split_strings (static_strings : list StaticString)
    (address min_length : Z) : list StaticString :=
  split_strings_loop static_strings static_strings address min_length.

End RustSplit.

Import RustSplit.

(** ** Python's [re]: a backtracking matcher

    The fragment of the pattern language used by [floss/utils.py], matched
    the way [re] does it: alternatives and repetitions are tried in priority
    order (leftmost alternative first; a greedy repetition prefers one more
    iteration, a lazy one prefers to stop) and the first success wins.  No
    flag is set: [.] excludes the newline, [^] holds at position 0 only and
    [$] at the end or just before a final newline. *)

Module Re.

Inductive re :=
| Eps
| Chr (c : char)                                   (* a literal *)
| Any                                              (* .         *)
| Cls (negated : bool) (ranges : list (char * char)) (* [..] [^..] *)
| Bol                                              (* ^         *)
| Eol                                              (* $         *)
| Seq (a b : re)
| Alt (a b : re)                                   (* a|b       *)
| Rep (greedy : bool) (lo : nat) (hi : option nat) (a : re) (* a{lo,hi} *)
| Grp (a : re)                                     (* (a), group 1 *)
| Ref.                                             (* \1        *)

(** Where the matcher stands: characters consumed so far, the text still
    ahead, and what group 1 holds. *)
Record mstate := mkState {
  m_pos : nat;
  m_rest : str;
  m_grp : option str
}.

Definition cont := mstate -> option mstate.

Definition in_ranges (c : char) (ranges : list (char * char)) : bool :=
  existsb (fun r => (fst r <=? c)%N && (c <=? snd r)%N) ranges.

Definition newline : char := 10%N.

(** Consume one character that satisfies [ok]. *)
Definition step1 (ok : char -> bool) (st : mstate) (k : cont) : option mstate :=
  match m_rest st with
  | c :: t => if ok c then k (mkState (S (m_pos st)) t (m_grp st)) else None
  | [] => None
  end.

Definition at_eol (st : mstate) : bool :=
  match m_rest st with
  | [] => true
  | [c] => N.eqb c newline
  | _ => false
  end.

Definition below (i : nat) (hi : option nat) : bool :=
  match hi with
  | None => true
  | Some h => (i <? h)%nat
  end.

(** [a{lo,hi}] after [i] iterations.  An iteration beyond [lo] has to
    consume something, so [fuel] larger than [lo] plus the length of the
    remaining text is never used up.  (Every repetition of
    [floss/utils.py] has a body that consumes a character; what [re] does
    with iterations that match the empty string is not needed.) *)
Fixpoint rep_loop (body : mstate -> cont -> option mstate)
    (greedy : bool) (lo : nat) (hi : option nat)
    (fuel i : nat) (st : mstate) (k : cont) : option mstate :=
  match fuel with
  | O => None
  | S fuel' =>
      let again :=
        if below i hi
        then body st (fun st' =>
               if (i <? lo)%nat || (m_pos st <? m_pos st')%nat
               then rep_loop body greedy lo hi fuel' (S i) st' k
               else None)
        else None in
      if (i <? lo)%nat then again
      else if greedy
      then match again with Some r => Some r | None => k st end
      else match k st with Some r => Some r | None => again end
  end.

Fixpoint run (r : re) (st : mstate) (k : cont) : option mstate :=
  match r with
  | Eps => k st
  | Chr c => step1 (N.eqb c) st k
  | Any => step1 (fun x => negb (N.eqb x newline)) st k
  | Cls negated ranges =>
      step1 (fun x => xorb negated (in_ranges x ranges)) st k
  | Bol => if Nat.eqb (m_pos st) 0 then k st else None
  | Eol => if at_eol st then k st else None
  | Seq a b => run a st (fun st' => run b st' k)
  | Alt a b =>
      match run a st k with
      | Some m => Some m
      | None => run b st k
      end
  | Rep greedy lo hi a =>
      rep_loop (run a) greedy lo hi (S (lo + length (m_rest st))) 0 st k
  | Grp a =>
      run a st (fun st' =>
        k (mkState (m_pos st') (m_rest st')
             (Some (firstn (m_pos st' - m_pos st) (m_rest st)))))
  | Ref =>
      match m_grp st with
      | Some w =>
          if starts_with w (m_rest st)
          then k (mkState (m_pos st + length w) (skipn (length w) (m_rest st))
                    (m_grp st))
          else None
      | None => None
      end
  end.

(** A match attempt at offset [pos], where [rest] is the text from there. *)
Definition match_at (r : re) (pos : nat) (rest : str) : option mstate :=
  run r (mkState pos rest None) Some.

(** [re.match(r, s)]: an attempt at offset 0 only. *)
Definition re_match (r : re) (s : str) : option mstate := match_at r 0 s.

(** [re.search(r, s)]: the first offset at which an attempt succeeds. *)
Fixpoint search_from (r : re) (pos : nat) (rest : str) : option mstate :=
  match match_at r pos rest with
  | Some m => Some m
  | None =>
      match rest with
      | [] => None
      | _ :: t => search_from r (S pos) t
      end
  end.

Definition re_search (r : re) (s : str) : option mstate := search_from r 0 s.

(** [re.sub(r, "", s)]: scanning left to right, the text of every match
    is dropped and the scan resumes where the match ended; [skip] counts
    the characters of the current match still to drop.  A match of length
    zero replaces nothing by nothing, after which [re] asks for a match that
    advances: what is dropped at an offset is the first match, in priority
    order, that consumes something. *)
Definition advancing (pos : nat) : cont :=
  fun m => if (pos <? m_pos m)%nat then Some m else None.

Fixpoint sub_loop (r : re) (pos skip : nat) (rest : str) : str :=
  match rest with
  | [] => []
  | c :: t =>
      match skip with
      | S n => sub_loop r (S pos) n t
      | O =>
          match run r (mkState pos rest None) (advancing pos) with
          | Some m => sub_loop r (S pos) (m_pos m - pos - 1) t
          | None => c :: sub_loop r (S pos) 0 t
          end
      end
  end.

Definition re_sub (r : re) (s : str) : str := sub_loop r 0 0 s.

(** Pattern syntax helpers. *)
Definition ch (a : ascii) : char := N_of_ascii a.
Definition one (a : ascii) : char * char := (ch a, ch a).
Definition rng (a b : ascii) : char * char := (ch a, ch b).
Definition chars (s : String.string) : list (char * char) :=
  map (fun c => (c, c)) (lit s).
Fixpoint cat (l : list re) : re :=
  match l with
  | [] => Eps
  | [a] => a
  | a :: l' => Seq a (cat l')
  end.
Definition opt (a : re) : re := Rep true 0 (Some 1%nat) a.

End Re.

Import Re.

(** ** Vocabulary for the matcher *)

Module ReSpec.

(** The number of characters still ahead. *)
Definition ahead (st : mstate) : nat := length (m_rest st).

(** [st'] lies further on in the text that [st] stands in. *)
Definition reach (st st' : mstate) : Prop :=
  (m_pos st' + ahead st' = m_pos st + ahead st)%nat /\ (ahead st' <= ahead st)%nat.

(** The least number of characters a match of the pattern consumes. *)
Fixpoint min_len (r : re) : nat :=
  match r with
  | Eps | Bol | Eol | Ref => 0
  | Chr _ | Any | Cls _ _ => 1
  | Seq a b => min_len a + min_len b
  | Alt a b => Nat.min (min_len a) (min_len b)
  | Rep _ lo _ a => lo * min_len a
  | Grp a => min_len a
  end.

End ReSpec.

Import ReSpec.

(** ** [floss/utils.py]: the false-positive filter *)

Module Utils.

(** [^.{0,2}[0pP]?[]^\[_\\V]A] *)
Definition FP_FILTER_PREFIX_1 : re :=
  cat [Bol; Rep true 0 (Some 2%nat) Any; opt (Cls false (chars "0pP"));
       Cls false (chars "]^[_\V"); Chr (ch "A")].

(** [[0pP]?[VWU][A@]$|Tp$] *)
Definition FP_FILTER_SUFFIX_1 : re :=
  Alt (cat [opt (Cls false (chars "0pP")); Cls false (chars "VWU");
            Cls false (chars "A@"); Eol])
      (cat [Chr (ch "T"); Chr (ch "p"); Eol]).

(** [([ -~])\1{3,}] *)
Definition FP_FILTER_REP_CHARS_1 : re :=
  cat [Grp (Cls false [rng " " "~"]); Rep true 3 None Ref].

(** [([^% ]{4})\1{4,}] *)
Definition FP_FILTER_REP_CHARS_2 : re :=
  cat [Grp (Rep true 4 (Some 4%nat) (Cls true (chars "% ")));
       Rep true 4 None Ref].

Definition MAX_STRING_LENGTH_FILTER_STRICT : Z := 6.

(** [^\[.*?]$|%[sd]] *)
Definition FP_FILTER_STRICT_INCLUDE : re :=
  Alt (cat [Bol; Chr (ch "["); Rep false 0 None Any; Chr (ch "]"); Eol])
      (cat [Chr (ch "%"); Cls false (chars "sd")]).

(** [[^A-Za-z0-9.]] *)
Definition FP_FILTER_STRICT_SPECIAL_CHARS : re :=
  Cls true [rng "A" "Z"; rng "a" "z"; rng "0" "9"; one "."].

(** [^O.*A$] *)
Definition FP_FILTER_STRICT_KNOWN_FP : re :=
  cat [Bol; Chr (ch "O"); Rep true 0 None Any; Chr (ch "A"); Eol].

(** The first loop of [strip_string]: the four substitutions applied to
    every candidate. *)
Definition strip_level (s : str) : str :=
  fold_left (fun s reg => re_sub reg s)
    [FP_FILTER_PREFIX_1; FP_FILTER_SUFFIX_1;
     FP_FILTER_REP_CHARS_1; FP_FILTER_REP_CHARS_2] s.

(** The two tests that guard the second loop. *)
Definition strict_gate (s : str) : bool :=
  (len s <=? MAX_STRING_LENGTH_FILTER_STRICT) &&
  negb (bool_decide (is_Some (re_match FP_FILTER_STRICT_INCLUDE s))).

(** The second loop: the stricter substitutions for short strings. *)
Definition strict_level (s : str) : str :=
  fold_left (fun s reg2 => re_sub reg2 s)
    [FP_FILTER_STRICT_KNOWN_FP; FP_FILTER_STRICT_SPECIAL_CHARS] s.

Definition strip_string (s : str) : str :=
  let s := strip_level s in
  if strict_gate s then strict_level s else s.

(** [FP_STRINGS]; the last entry is the run of all printable ASCII
    characters, space (32) up to tilde (126). *)
Definition FP_STRINGS : list str :=
  [lit "R6016";
   lit "R6030";
   lit "Program: ";
   lit "Runtime Error!";
   lit "bad locale name";
   lit "ios_base::badbit set";
   lit "ios_base::eofbit set";
   lit "ios_base::failbit set";
   lit "- CRT not initialized";
   lit "program name unknown>";
   lit "<program name unknown>";
   lit "- floating point not loaded";
   lit "Program: <program name unknown>";
   lit "- not enough space for thread data";
   map N.of_nat (seq 32 95)].

(** [exclude and decoded_string in exclude]: [None] and the empty set are
    both falsy. *)
Definition excluded (exclude : option (gset str)) (decoded_string : str) : bool :=
  match exclude with
  | Some e => negb (bool_decide (e = ∅)) && bool_decide (decoded_string ∈ e)
  | None => false
  end.

Section ExtractStrings.

(** [floss.strings.extract_ascii_unicode_strings], the external scanner. *)
Variable extract_ascii_unicode_strings : bytes -> list StaticString.
(** [floss.const.MAX_STRING_LENGTH] *)
Variable MAX_STRING_LENGTH : Z.

(** One turn of the loop of [extract_strings] for the scanned candidate
    [s], reading [exclude] as it is at that moment: [None] is
    [continue], [Some x] is [yield x]. *)
Definition extract_strings_body (min_length : Z)
    (exclude : option (gset str)) (s : StaticString) : option StaticString :=
  if MAX_STRING_LENGTH <? len (ss_string s) then None
  else if bool_decide (ss_string s ∈ FP_STRINGS) then None
  else
    let decoded_string := strip_string (ss_string s) in
    if len decoded_string <? min_length then None
    else if excluded exclude decoded_string then None
    else Some (mkStaticString decoded_string (ss_offset s) (ss_encoding s)).

(** The candidates the generator walks through: none when the buffer is
    shorter than [min_length]. *)
Definition candidates (buffer : bytes) (min_length : Z) : list StaticString :=
  if len buffer <? min_length then []
  else extract_ascii_unicode_strings buffer.

(** [extract_strings(buffer, min_length, exclude)] drained by a caller
    that leaves [exclude] alone. *)
Definition extract_strings (buffer : bytes) (min_length : Z)
    (exclude : option (gset str)) : list StaticString :=
  omap (extract_strings_body min_length exclude) (candidates buffer min_length).

End ExtractStrings.

End Utils.

Import Utils.

(** ** [floss/tightstrings.py] *)

Module Tightstrings.

(** [floss.stackstrings.CallContext], the fields read here. *)
Record CallContext := mkCallContext {
  pc : Z;
  sp : Z;
  init_sp : Z;
  stack_memory : bytes
}.

(** A tight loop of a function. *)
Record TightLoop := mkTightLoop { startva : Z; endva : Z }.

Section Engine.

Variable extract_ascii_unicode_strings : bytes -> list StaticString.
Variable MAX_STRING_LENGTH : Z.
(** [extract_tightstring_contexts(vw, fva, tloops)]: the emulator run of
    one function, giving the post-loop contexts and the texts seen on
    the stack before the loops. *)
Variable extract_tightstring_contexts :
  Z -> list TightLoop -> list CallContext * gset str.
(** [stackstrings.getPointerSize(vw)] *)
Variable pointer_size : Z.

(** The [for s in extract_strings(ctx.stack_memory, min_length, exclude)]
    loop.  The generator and the loop body share the one set object
    [exclude]: each candidate is tested against the set as the earlier
    turns left it, and a yielded text is added before the generator
    resumes.  Returns the strings yielded and the set afterwards. *)
Fixpoint tightstrings_of_candidates (fva : Z) (ctx : CallContext)
    (cands : list StaticString) (min_length : Z) (exclude : gset str)
    : list TightString * gset str :=
  match cands with
  | [] => ([], exclude)
  | c :: cands' =>
      match extract_strings_body MAX_STRING_LENGTH min_length (Some exclude) c with
      | None => tightstrings_of_candidates fva ctx cands' min_length exclude
      | Some s =>
          let frame_offset :=
            (init_sp ctx - sp ctx) - ss_offset s - pointer_size in
          let ts :=
            mkTightString fva (ss_string s) (ss_encoding s) (pc ctx) (sp ctx)
              (init_sp ctx) (ss_offset s) frame_offset in
          let '(out, exclude') :=
            tightstrings_of_candidates fva ctx cands' min_length
              (exclude ∪ {[ss_string s]}) in
          (ts :: out, exclude')
      end
  end.

(** The [for ctx in ctxs] loop of one function. *)
Fixpoint tightstrings_of_contexts (fva : Z) (ctxs : list CallContext)
    (min_length : Z) (exclude : gset str) : list TightString * gset str :=
  match ctxs with
  | [] => ([], exclude)
  | ctx :: ctxs' =>
      let '(out1, exclude1) :=
        tightstrings_of_candidates fva ctx
          (candidates extract_ascii_unicode_strings (stack_memory ctx) min_length)
          min_length exclude in
      let '(out2, exclude2) :=
        tightstrings_of_contexts fva ctxs' min_length exclude1 in
      (out1 ++ out2, exclude2)
  end.

(** What one function contributes: [exclude = pre_ctx_strings]. *)
Definition tightstrings_of_function (fva : Z) (tloops : list TightLoop)
    (min_length : Z) : list TightString :=
  let '(ctxs, pre_ctx_strings) := extract_tightstring_contexts fva tloops in
  fst (tightstrings_of_contexts fva ctxs min_length pre_ctx_strings).

(** [extract_tightstrings(vw, tightloop_functions, min_length)]: every
    string the generator yields, in order.  [tightloop_functions] is the
    dict given by its items. *)
Definition extract_tightstrings (tightloop_functions : list (Z * list TightLoop))
    (min_length : Z) : list TightString :=
  flat_map (fun item => tightstrings_of_function (fst item) (snd item) min_length)
    tightloop_functions.

End Engine.

End Tightstrings.

(** ** [floss/language/rust/extract.py]: the blob string engine *)

Module RustExtract.

(** A result of the [binary2strings] scanner:
    [(text, kind, (start, end), is_interesting)]. *)
Definition b2s_string : Type := str * String.string * (Z * Z) * bool.

Definition text_of (x : b2s_string) : str := fst (fst (fst x)).
Definition kind_of (x : b2s_string) : String.string := snd (fst (fst x)).
Definition span_of (x : b2s_string) : Z * Z := snd (fst x).

(** One code point in UTF-16LE; a lone surrogate cannot be encoded and the
    [ignore] handler drops it. *)
Definition utf16le_unit (u : N) : bytes := [N.land u 255; N.shiftr u 8]%N.

Definition utf16le_char (c : char) : bytes :=
  if (c <? 0xD800)%N then utf16le_unit c
  else if (c <? 0xE000)%N then []
  else if (c <? 0x10000)%N then utf16le_unit c
  else if (c <? 0x110000)%N then
    let v := (c - 0x10000)%N in
    utf16le_unit (0xD800 + N.shiftr v 10) ++ utf16le_unit (0xDC00 + N.land v 0x3FF)
  else [].

(** [s.encode("utf-16le", "ignore")] *)
Definition encode_utf16le_ignore (s : str) : bytes := flat_map utf16le_char s.

Section Repair.

(** [b2s.extract_string] *)
Variable extract_string : bytes -> b2s_string.

(** The candidate fix-up for a wide string that starts at [start]: the
    string found at [buffer[start + 1 :]], its span moved back into the
    coordinates of [buffer]. *)
Definition rescan (buffer : bytes) (start : Z) : b2s_string :=
  let new_string := extract_string (slice_from buffer (start + 1)) in
  (text_of new_string, kind_of new_string,
   (fst (span_of new_string) + start + 1, snd (span_of new_string) + start + 1),
   snd new_string).

(** The loop of [fix_b2s_wide_strings] over the results not yet visited,
    with the two locals [fixed_strings] and [last_fixup].  [sd[0]] raises
    [IndexError] when the encoded text is empty. *)
Fixpoint fix_loop (strings : list b2s_string) (min_length : Z) (buffer : bytes)
    (fixed_strings : list b2s_string) (last_fixup : option b2s_string)
    : result (list b2s_string) :=
  match strings with
  | [] => Ok fixed_strings
  | string :: strings' =>
      let s := text_of string in
      let string_type := kind_of string in
      let start := fst (span_of string) in
      if String.eqb string_type "WIDE_STRING" then
        match encode_utf16le_ignore s with
        | [] => Raise IndexError
        | sd0 :: _ =>
            if N.eqb sd0 0 then
              let fixup := rescan buffer start in
              let last_fixup :=
                if len (text_of fixup) <? min_length then None else Some fixup in
              fix_loop strings' min_length buffer fixed_strings last_fixup
            else fix_loop strings' min_length buffer fixed_strings last_fixup
        end
      else
        let emitted :=
          match last_fixup with
          | Some fixup => if contains s (text_of fixup) then fixup else string
          | None => string
          end in
        fix_loop strings' min_length buffer (fixed_strings ++ [emitted]) None
  end.

Definition fix_b2s_wide_strings (strings : list b2s_string) (min_length : Z)
    (buffer : bytes) : result (list b2s_string) :=
  fix_loop strings min_length buffer [] None.

End Repair.

Definition filter_and_transform_utf8_strings (strings : list b2s_string)
    (start_rdata : Z) : list StaticString :=
  flat_map (fun string =>
    let s := text_of string in
    let string_type := kind_of string in
    let start := fst (span_of string) + start_rdata in
    if negb (String.eqb string_type "UTF8") then []
    else [mkStaticString (remove_char newline s) start UTF8]) strings.

(** The section header [get_rdata_section] returns. *)
Record SectionHeader := mkSection {
  VirtualAddress : Z;
  PointerToRawData : Z;
  SizeOfRawData : Z;
  get_data : bytes
}.

(** [pefile.MACHINE_TYPE] *)
Definition IMAGE_FILE_MACHINE_I386 : Z := 0x14c.
Definition IMAGE_FILE_MACHINE_AMD64 : Z := 0x8664.

Section BlobEngine.

(** The [pefile.PE] object and what is read off it. *)
Variable PE : Type.
Variable ImageBase : PE -> Z.
Variable Machine : PE -> Z.
(** [floss.language.utils.get_rdata_section]; [None] when it raises
    [ValueError]. *)
Variable get_rdata_section : PE -> option SectionHeader.
(** [b2s.extract_all_strings] and [b2s.extract_string] *)
Variable extract_all_strings : bytes -> Z -> list b2s_string.
Variable extract_string : bytes -> b2s_string.
(** The addresses of [get_struct_string_candidates(pe)] and the three
    instruction scans, each consumed lazily by the final loop. *)
Variable struct_string_addrs : PE -> list Z.
Variable find_lea_xrefs : PE -> list Z.
Variable find_push_xrefs : PE -> list Z.
Variable find_mov_xrefs : PE -> list Z.

(** The [for addr in xrefs] loop. *)
Definition split_at_xrefs (static_strings : list StaticString) (xrefs : list Z)
    (image_base virtual_address pointer_to_raw_data start_rdata end_rdata
     min_length : Z) : list StaticString :=
  fold_left (fun static_strings addr =>
    let address := addr - image_base - virtual_address + pointer_to_raw_data in
    if negb ((start_rdata <=? address) && (address <? end_rdata))
    then static_strings
    else split_strings static_strings address min_length) xrefs static_strings.

Definition get_string_blob_strings (pe : PE) (min_length : Z)
    : result (list StaticString) :=
  let image_base := ImageBase pe in
  match get_rdata_section pe with
  | None => Ok []
  | Some rdata_section =>
      let start_rdata := PointerToRawData rdata_section in
      let end_rdata := start_rdata + SizeOfRawData rdata_section in
      let virtual_address := VirtualAddress rdata_section in
      let pointer_to_raw_data := PointerToRawData rdata_section in
      let buffer_rdata := get_data rdata_section in
      let strings := extract_all_strings buffer_rdata min_length in
      match fix_b2s_wide_strings extract_string strings min_length buffer_rdata with
      | Raise e => Raise e
      | Ok fixed_strings =>
          let static_strings :=
            filter_and_transform_utf8_strings fixed_strings start_rdata in
          let finish xrefs :=
            Ok (split_at_xrefs static_strings xrefs image_base virtual_address
                  pointer_to_raw_data start_rdata end_rdata min_length) in
          if Machine pe =? IMAGE_FILE_MACHINE_I386 then
            finish (struct_string_addrs pe ++ find_lea_xrefs pe ++
                    find_push_xrefs pe ++ find_mov_xrefs pe)
          else if Machine pe =? IMAGE_FILE_MACHINE_AMD64 then
            finish (struct_string_addrs pe ++ find_lea_xrefs pe)
          else Ok []
      end
  end.

End BlobEngine.

End RustExtract.

Import Tightstrings RustExtract.

(** ** The strict-level gate in the words of the specification *)

Module FilterSpec.

(** The pattern the specification writes for bracketed names:
    [^\[.*\]$]. *)
Definition BRACKETED : re :=
  cat [Bol; Chr (ch "["); Rep true 0 None Any; Chr (ch "]"); Eol].

Definition matches_bracketed (s : str) : bool :=
  bool_decide (is_Some (re_match BRACKETED s)).

(** The string contains [%s] or [%d]. *)
Definition contains_format (s : str) : bool :=
  contains (lit "%s") s || contains (lit "%d") s.

(** The string starts with [%s] or [%d]. *)
Definition starts_with_format (s : str) : bool :=
  starts_with (lit "%s") s || starts_with (lit "%d") s.

(** The gate as the specification words it. *)
Definition strict_gate_as_specified (s : str) : bool :=
  (len s <=? 6) && negb (matches_bracketed s) && negb (contains_format s).

(** The gate with [contains] replaced by [starts with]. *)
Definition strict_gate_anchored (s : str) : bool :=
  (len s <=? 6) && negb (matches_bracketed s) && negb (starts_with_format s).

(** The characters the strict level keeps: [[A-Za-z0-9.]]. *)
Definition plain (c : char) : bool :=
  in_ranges c [rng "A" "Z"; rng "a" "z"; rng "0" "9"; one "."].

(** The text ends here, a final newline apart. *)
Definition ends_here (t : str) : bool :=
  match t with
  | [] => true
  | [c] => N.eqb c newline
  | _ => false
  end.

(** A closing bracket that ends the text. *)
Definition closing_bracket (s : str) : bool :=
  match s with
  | c :: t => N.eqb (ch "]") c && ends_here t
  | [] => false
  end.

(** [K] holds of the text, or of what is left of it after some characters
    other than the newline. *)
Fixpoint after_any (K : str -> bool) (s : str) : bool :=
  K s ||
  match s with
  | [] => false
  | c :: t => negb (N.eqb c newline) && after_any K t
  end.

(** Reading on from inside the brackets: after some characters other than
    the newline comes a closing bracket that ends the text. *)
Definition closes (s : str) : bool := after_any closing_bracket s.

(** Nothing is left for the filter to remove from [t]: none of the four
    patterns of the strip level matches anywhere in [t], and if [t] passes
    the gate of the strict level, [^O.*A$] does not match it either. *)
Definition settled (t : str) : Prop :=
  re_search FP_FILTER_PREFIX_1 t = None /\
  re_search FP_FILTER_SUFFIX_1 t = None /\
  re_search FP_FILTER_REP_CHARS_1 t = None /\
  re_search FP_FILTER_REP_CHARS_2 t = None /\
  (strict_gate t = true -> re_search FP_FILTER_STRICT_KNOWN_FP t = None).

End FilterSpec.

Import FilterSpec.

(** ** Vocabulary for the wide-string repair pass *)

Module RepairSpec.

(** The result is of kind [WIDE_STRING]. *)
Definition is_wide (x : b2s_string) : bool :=
  String.eqb (kind_of x) "WIDE_STRING".

(** The UTF-16LE encoding of the text starts with a zero byte. *)
Definition first_byte_zero (x : b2s_string) : bool :=
  match encode_utf16le_ignore (text_of x) with
  | sd0 :: _ => N.eqb sd0 0
  | [] => false
  end.

(** [x] is the fix-up of a wide result [w] of [strings]: [w] re-encodes
    with a leading zero byte, [x] is what the scan one byte after the
    start of [w] finds, and its text is long enough. *)
Definition fixup_of (extract_string : bytes -> b2s_string)
    (strings : list b2s_string) (min_length : Z) (buffer : bytes)
    (x : b2s_string) : Prop :=
  exists w, In w strings /\ is_wide w = true /\ first_byte_zero w = true /\
    x = rescan extract_string buffer (fst (span_of w)) /\
    min_length <= len (text_of x).

(** Where an element of the output may come from. *)
Definition origin (extract_string : bytes -> b2s_string)
    (strings : list b2s_string) (min_length : Z) (buffer : bytes)
    (x : b2s_string) : Prop :=
  (In x strings /\ is_wide x = false) \/
  fixup_of extract_string strings min_length buffer x.

(** What the repair pass relies on: a wide result has a text that encodes
    to at least one byte. *)
Definition wide_texts_encode (strings : list b2s_string) : Prop :=
  forall r, In r strings -> is_wide r = true ->
    encode_utf16le_ignore (text_of r) <> [].

End RepairSpec.

Import RepairSpec.

(** ** Vocabulary for the tightstring loops *)

Module TightSpec.

(** What a run of the inner loops guarantees when it starts from the
    exclusion set [before] and ends with [after]. *)
Definition fresh_run (fva : Z) (before : gset str) (out : list TightString)
    (after : gset str) : Prop :=
  after = before ∪ list_to_set (map ts_string out) /\
  NoDup (map ts_string out) /\
  Forall (fun ts => (ts_string ts ∉ before) /\ ts_function ts = fva) out.

End TightSpec.

Import TightSpec.

(** ** Sample inputs *)

Module Samples.

(** Modelled from the spec: the external string scanner (the modules
    [floss.strings] and [binary2strings] are not part of the sources), as
    far as plain ASCII goes: it reports the maximal runs of printable
    ASCII bytes that have [n] characters or more, with their offsets. *)
Definition printable (b : byte) : bool := (32 <=? b)%N && (b <=? 126)%N.

Fixpoint ascii_runs (n : nat) (buf : bytes) (offset : Z) (run : str)
    : list StaticString :=
  let flush :=
    if (n <=? length run)%nat
    then [mkStaticString run (offset - len run) ASCII] else [] in
  match buf with
  | [] => flush
  | b :: buf' =>
      if printable b then ascii_runs n buf' (offset + 1) (run ++ [b])
      else flush ++ ascii_runs n buf' (offset + 1) []
  end.

Definition scan_ascii (buf : bytes) : list StaticString := ascii_runs 4 buf 0 [].

(** Modelled from the spec: the single-string variant of the scanner on
    ASCII input, the printable run at the very start of the buffer. *)
Fixpoint leading_run (buf : bytes) : str :=
  match buf with
  | b :: buf' => if printable b then b :: leading_run buf' else []
  | [] => []
  end.

Definition scan_one_ascii (buf : bytes) : b2s_string :=
  (leading_run buf, "UTF8"%string, (0, len (leading_run buf)), true).

(** Modelled from the spec: the single-string variant on wide input, the
    run of printable characters each followed by a zero byte. *)
Fixpoint leading_wide_run (buf : bytes) : str :=
  match buf with
  | b :: z :: buf' =>
      if printable b && N.eqb z 0 then b :: leading_wide_run buf' else []
  | _ => []
  end.

Definition scan_one (buf : bytes) : b2s_string :=
  match leading_wide_run buf with
  | [] => scan_one_ascii buf
  | w => (w, "WIDE_STRING"%string, (0, 2 * len w), true)
  end.

(** Modelled from the spec: the scanner of a whole buffer, on plain ASCII
    input. *)
Definition scan_all_ascii (buf : bytes) (min_length : Z) : list b2s_string :=
  map (fun s => (ss_string s, "UTF8"%string,
                 (ss_offset s, ss_offset s + len (ss_string s)), true))
    (ascii_runs (Z.to_nat min_length) buf 0 []).

(** The value of [floss.const.MAX_STRING_LENGTH] used in the samples. *)
Definition max_string_length : Z := 2048.

Definition abcdefgh : StaticString := mkStaticString (lit "abcdefgh") 0x100 UTF8.

(** A candidate that ends in a false-positive suffix. *)
Definition runtime_error_VA : StaticString :=
  mkStaticString (lit "Runtime Error!VA") 0 ASCII.

Definition runtime_error : StaticString :=
  mkStaticString (lit "Runtime Error!") 0 ASCII.

(** The bytes of "SECRET", a zero byte, the bytes of "PASS", a zero
    byte: a post-loop stack. *)
Definition secret_pass_stack : bytes := lit "SECRET" ++ [0%N] ++ lit "PASS" ++ [0%N].

Definition sample_context : CallContext := mkCallContext 0x401020 0x1000 0x1040 secret_pass_stack.

(** An emulator run that saw "SECRET" on the stack before the loop. *)
Definition sample_contexts (fva : Z) (tloops : list TightLoop)
    : list CallContext * gset str :=
  ([sample_context], {[ lit "SECRET" ]}).

Definition sample_functions : list (Z * list TightLoop) :=
  [(0x401000, [mkTightLoop 0x401010 0x401020])].

(** The first scenario of the specification, as written there. *)
Definition foo_wide : b2s_string := (lit "foo", "WIDE_STRING"%string, (0, 6), true).
Definition oo_utf8 : b2s_string := (lit "oo", "UTF8"%string, (1, 3), true).
Definition foo_fixup : b2s_string := (lit "foo", "UTF8"%string, (1, 4), true).
(** "foo" stored as UTF-16LE. *)
Definition foo_wide_buffer : bytes := [0x66; 0; 0x6F; 0; 0x6F; 0]%N.

(** A zero byte followed by the UTF-8 text "foo": read from offset 0 in
    16-bit units this is the wide text U+6600 U+6F6F U+2100. *)
Definition shifted_buffer : bytes := [0; 0x66; 0x6F; 0x6F; 0; 0x21]%N.
Definition shifted_text : str := [0x6600; 0x6F6F; 0x2100]%N.

(** A zero byte followed by "abcd" in UTF-16LE, and further on the UTF-8
    text "bc": the scanner reads a wide text from offset 0, and the scan
    from offset 1 finds the wide string "abcd". *)
Definition wide_buffer : bytes :=
  [0; 0x61; 0; 0x62; 0; 0x63; 0; 0x64; 0; 0; 0x62; 0x63; 0]%N.
Definition wide_results : list b2s_string :=
  [([0x6100; 0x6200; 0x6300; 0x6400]%N, "WIDE_STRING"%string, (0, 8), true);
   (lit "bc", "UTF8"%string, (10, 12), true)].
Definition abcd_wide : b2s_string := (lit "abcd", "WIDE_STRING"%string, (1, 9), true).

(** A PE image as far as the blob engine looks at it. *)
Record SamplePE := mkSamplePE {
  pe_image_base : Z;
  pe_machine : Z;
  pe_rdata : option SectionHeader
}.

Definition no_xrefs (pe : SamplePE) : list Z := [].

(** An ARM image (machine type 0x1c0) with a read-only section that holds
    the text "hello world". *)
Definition arm_image : SamplePE :=
  mkSamplePE 0x400000 0x1c0
    (Some (mkSection 0x2000 0x600 12 (lit "hello world" ++ [0%N]))).

(** An x86 image without a read-only section. *)
Definition bare_image : SamplePE := mkSamplePE 0x400000 0x14c None.

Definition blob_strings_of (pe : SamplePE) (min_length : Z)
    : result (list StaticString) :=
  get_string_blob_strings SamplePE pe_image_base pe_machine pe_rdata
    scan_all_ascii scan_one no_xrefs no_xrefs no_xrefs no_xrefs pe min_length.

End Samples.

Import Samples.

(** ** [floss/language/rust/extract.py]: [get_static_strings_from_rdata] *)

Module RustRdata.

Section Rdata.

Variable PE : Type.
(** [floss.language.utils.get_rdata_section]; [None] when it raises
    [ValueError]. *)
Variable get_rdata_section : PE -> option SectionHeader.

(** [get_static_strings_from_rdata(sample, static_strings)], from the
    parsed image on. *)
Definition get_static_strings_from_rdata (pe : PE)
    (static_strings : list StaticString) : list StaticString :=
  match get_rdata_section pe with
  | None => []
  | Some rdata_section =>
      let start_rdata := PointerToRawData rdata_section in
      let end_rdata := start_rdata + SizeOfRawData rdata_section in
      List.filter (fun s => (start_rdata <=? ss_offset s) && (ss_offset s <? end_rdata))
        static_strings
  end.

End Rdata.

End RustRdata.

Import RustRdata.

(** ** [floss/tightstrings.py]: [TightstringContextMonitor] *)

Module TightMonitor.

(** The fields of the monitor that the two hooks read and write. *)
Record Monitor := mkMonitor {
  tloop_startvas : list Z;
  tloop_endvas : list Z;
  pre_ctx_strings : gset str;
  ctxs : list CallContext
}.

Section Hooks.

(** [floss.strings.extract_ascii_strings] and
    [floss.strings.extract_unicode_strings] *)
Variable extract_ascii_strings : bytes -> list StaticString.
Variable extract_unicode_strings : bytes -> list StaticString.

(** [prehook(emu, op, startpc)].  [stack_buf] is what
    [self.get_call_context(emu, op).stack_memory] gives, [None] when it
    raises [ValueError]. *)
Definition prehook (m : Monitor) (startpc : Z) (stack_buf : option bytes) : Monitor :=
  if bool_decide (startpc ∈ tloop_startvas m) then
    match stack_buf with
    | None => m
    | Some stack_buf =>
        mkMonitor
          (remove_first startpc (tloop_startvas m))
          (tloop_endvas m)
          (pre_ctx_strings m
             ∪ list_to_set (map ss_string (extract_ascii_strings stack_buf))
             ∪ list_to_set (map ss_string (extract_unicode_strings stack_buf)))
          (ctxs m)
    end
  else m.

(** [posthook(emu, op, endpc)].  [extract_context] belongs to the base
    class, which is not among the sources: [ctxs_after] is what it leaves
    in [self.ctxs]. *)
Definition posthook (m : Monitor) (endpc : Z) (ctxs_after : list CallContext)
    : Monitor :=
  if bool_decide (endpc ∈ tloop_endvas m) then
    mkMonitor (tloop_startvas m) (remove_first endpc (tloop_endvas m))
      (pre_ctx_strings m) ctxs_after
  else m.

End Hooks.

End TightMonitor.

(** ** [floss/utils.py]: [remove_stack_memory] *)

Module StackMemory.

(** An entry of the memory snapshot: [(va, perms, info, bytes)] with
    [info = (va, size, perms, name)]. *)
Definition mmap_info : Type := Z * Z * Z * String.string.
Definition mmap : Type := Z * Z * mmap_info * bytes.

(** [info[3]] of an entry. *)
Definition info_name (m : mmap) : String.string := snd (snd (fst m)).

Definition STACK_MEM_NAME : String.string := "[stack]".

(** The emulator as far as [remove_stack_memory] touches it. *)
Record Emulator := mkEmulator {
  memory_snap : list mmap;
  stack_map_base : option Z
}.

Inductive outcome :=
| Returned (emu : Emulator)
| ValueError.

(** The loop [for i in range(len(memory_snap) - 1, -1, -1)] with [n]
    indices still to visit, the next one being [n - 1]: the snapshot
    without the entry at the first index found, [None] when the loop runs
    out. *)
Fixpoint remove_stack_loop (memory_snap : list mmap) (n : nat) : option (list mmap) :=
  match n with
  | O => None
  | S i =>
      match memory_snap !! i with
      | Some m =>
          if String.eqb (info_name m) STACK_MEM_NAME
          then Some (delete i memory_snap)
          else remove_stack_loop memory_snap i
      | None => remove_stack_loop memory_snap i
      end
  end.

Definition remove_stack_memory (emu : Emulator) : outcome :=
  match remove_stack_loop (memory_snap emu) (length (memory_snap emu)) with
  | Some memory_snap' => Returned (mkEmulator memory_snap' None)
  | None => ValueError
  end.

End StackMemory.

(** ** Vocabulary for the added properties *)

Module MoreSpec.

(** [x] is a stretch of [s]: its text occurs in the text of [s], at the
    place its offset says. *)
Definition stretch_of (s x : StaticString) : Prop :=
  exists a b, ss_string s = a ++ ss_string x ++ b /\
              ss_offset x = ss_offset s + len a.

(** The text holds no newline. *)
Definition one_line (s : str) : Prop := ~ In newline s.

(** The address that the cross-reference [addr] stands for lies in the
    read-only section. *)
Definition xref_in_section (image_base virtual_address pointer_to_raw_data
    start_rdata end_rdata addr : Z) : bool :=
  let address := addr - image_base - virtual_address + pointer_to_raw_data in
  (start_rdata <=? address) && (address <? end_rdata).

(** Sample memory snapshots. *)
Definition stack_map (va : Z) : StackMemory.mmap :=
  (va, 6, (va, 0x1000, 6, "[stack]"%string), []).
Definition image_map (va : Z) : StackMemory.mmap :=
  (va, 5, (va, 0x1000, 5, "sample.exe"%string), []).

(** An x86 image with the text "hello world" in its read-only section, and
    one cross-reference to the address of the sixth character. *)
Definition x86_image : SamplePE :=
  mkSamplePE 0x400000 IMAGE_FILE_MACHINE_I386
    (Some (mkSection 0x2000 0x600 12 (lit "hello world" ++ [0%N]))).

Definition hello_xrefs (pe : SamplePE) : list Z := [0x402005].

Definition hello_world_strings (min_length : Z) : result (list StaticString) :=
  get_string_blob_strings SamplePE pe_image_base pe_machine pe_rdata
    scan_all_ascii scan_one hello_xrefs no_xrefs no_xrefs no_xrefs
    x86_image min_length.

(** A monitor for one tight loop, nothing captured yet, and a scanner
    that finds nothing. *)
Definition fresh_monitor : TightMonitor.Monitor :=
  TightMonitor.mkMonitor [0x401010] [0x401020] ∅ [].

Definition scan_nothing (buf : bytes) : list StaticString := [].

(** An emulator with two stack maps among its memory maps. *)
Definition two_stacks : StackMemory.Emulator :=
  StackMemory.mkEmulator
    [image_map 0x400000; stack_map 0xbfb00000; image_map 0x500000;
     stack_map 0xbfc00000; image_map 0x600000]
    (Some 0xbfc00000).

(** A fix-up counts only if its text has [min_length] characters. *)
Definition long_enough (min_length : Z) (fixup : b2s_string) : option b2s_string :=
  if len (text_of fixup) <? min_length then None else Some fixup.

(** The fix-up that is pending after the wide results [ws], when none was
    pending before them: it comes from the last of them whose encoding
    starts with a zero byte, if there is one and the scan one byte after
    its start finds a text that is long enough. *)
Definition pending (extract_string : bytes -> b2s_string) (min_length : Z)
    (buffer : bytes) (ws : list b2s_string) : option b2s_string :=
  match last (List.filter first_byte_zero ws) with
  | Some w => long_enough min_length (rescan extract_string buffer (fst (span_of w)))
  | None => None
  end.

(** What is emitted for the result [u] that is not wide: the pending
    fix-up when the text of [u] occurs in the text of the fix-up, else [u]
    itself. *)
Definition emitted_for (fixup : option b2s_string) (u : b2s_string) : b2s_string :=
  match fixup with
  | Some f => if contains (text_of u) (text_of f) then f else u
  | None => u
  end.

(** A scanner that reports one wide string with an empty text. *)
Definition scan_empty_wide (buf : bytes) (min_length : Z) : list b2s_string :=
  [([], "WIDE_STRING"%string, (0, 0), true)].

Definition empty_wide_strings (pe : SamplePE) (min_length : Z)
    : result (list StaticString) :=
  get_string_blob_strings SamplePE pe_image_base pe_machine pe_rdata
    scan_empty_wide scan_one no_xrefs no_xrefs no_xrefs no_xrefs pe min_length.

End MoreSpec.

Import MoreSpec.

(** * Properties *)

(** ** Slices and list deletion *)

Lemma len_nonneg {A} (l : list A) : 0 <= len l.
Proof. unfold len. lia. Qed.

Lemma bound_in_range {A} (l : list A) (i : Z) :
  0 <= i -> bound l i = Z.to_nat i.
Proof.
  intros Hi. unfold bound.
  destruct (Z.ltb_spec i 0); [lia | reflexivity].
Qed.

Lemma slice_to_from {A} (l : list A) (i : Z) :
  slice_to l i ++ slice_from l i = l.
Proof. unfold slice_to, slice_from. apply firstn_skipn. Qed.

Lemma len_slice_to {A} (l : list A) (i : Z) :
  0 <= i <= len l -> len (slice_to l i) = i.
Proof.
  intros Hi. unfold slice_to, len in *.
  rewrite bound_in_range by lia.
  rewrite length_take. lia.
Qed.

Lemma len_slice_from {A} (l : list A) (i : Z) :
  0 <= i <= len l -> len (slice_from l i) = len l - i.
Proof.
  intros Hi. unfold slice_from, len in *.
  rewrite bound_in_range by lia.
  rewrite length_drop. lia.
Qed.

Lemma remove_first_middle {A} `{EqDecision A} (x : A) (l1 l2 : list A) :
  ~ In x l1 -> remove_first x (l1 ++ x :: l2) = l1 ++ l2.
Proof.
  induction l1 as [|y l1 IH]; intros Hnot; simpl.
  - destruct (decide (x = x)); [reflexivity | congruence].
  - destruct (decide (y = x)) as [->|Hne].
    + exfalso. apply Hnot. left. reflexivity.
    + f_equal. apply IH. intros Hin. apply Hnot. right. exact Hin.
Qed.

(** ** [split_strings] *)

Lemma inside_spec (off : Z) (s : StaticString) :
  inside off s = true <-> ss_offset s < off < ss_offset s + len (ss_string s).
Proof. unfold inside. rewrite andb_true_iff, !Z.ltb_lt. tauto. Qed.

(** The loop stops at the first element that contains the address. *)
Lemma split_strings_loop_first_hit (pending all : list StaticString)
    (off min_length : Z) :
  (exists s0, In s0 pending /\ inside off s0 = true) ->
  exists l1 s l2,
    pending = l1 ++ s :: l2 /\
    (forall x, In x l1 -> inside off x = false) /\
    inside off s = true /\
    split_strings_loop pending all off min_length = split_at all s off min_length.
Proof.
  induction pending as [|x pending IH]; intros (s0 & Hin & Hs0).
  - destruct Hin.
  - simpl. destruct (inside off x) eqn:Hx.
    + exists [], x, pending. repeat split; auto. intros y [].
    + destruct Hin as [->|Hin]; [congruence|].
      destruct IH as (l1 & s & l2 & -> & Hl1 & Hs & Heq); [eauto|].
      exists (x :: l1), s, l2. repeat split; auto.
      intros y [<-|Hy]; auto.
Qed.

(** C1: when the address lies strictly inside a held string, the first such
    string [s] of the list is taken out and the two slices of its text at
    the address (the prefix at [s.offset], the suffix at the address, which
    concatenate back to the text of [s]) are appended, each one exactly when
    its length reaches [min_length]. *)
Theorem split_strings_first_hit (l : list StaticString) (off min_length : Z) :
  (exists s0, In s0 l /\ ss_offset s0 < off < ss_offset s0 + len (ss_string s0)) ->
  exists l1 s l2,
    l = l1 ++ s :: l2 /\
    (forall x, In x l1 -> ~ (ss_offset x < off < ss_offset x + len (ss_string x))) /\
    ss_offset s < off < ss_offset s + len (ss_string s) /\
    let s1 := mkStaticString (slice_to (ss_string s) (off - ss_offset s))
                (ss_offset s) UTF8 in
    let s2 := mkStaticString (slice_from (ss_string s) (off - ss_offset s))
                off UTF8 in
    ss_string s1 ++ ss_string s2 = ss_string s /\
    len (ss_string s1) = off - ss_offset s /\
    split_strings l off min_length =
      l1 ++ l2 ++ (if min_length <=? len (ss_string s1) then [s1] else [])
               ++ (if min_length <=? len (ss_string s2) then [s2] else []).
Proof.
  intros (s0 & Hin & Hs0).
  destruct (split_strings_loop_first_hit l l off min_length)
    as (l1 & s & l2 & Hl & Hl1 & Hs & Heq).
  { exists s0. split; [exact Hin | apply inside_spec; exact Hs0]. }
  exists l1, s, l2.
  assert (Hnot : ~ In s l1).
  { intros Hin'. apply Hl1 in Hin'. congruence. }
  apply inside_spec in Hs.
  split; [exact Hl|]. split.
  { intros x Hx Hc. apply inside_spec in Hc. rewrite (Hl1 x Hx) in Hc. discriminate. }
  split; [exact Hs|]. cbn zeta. cbn [ss_string].
  split; [apply slice_to_from|].
  split; [apply len_slice_to; lia|].
  unfold split_strings. rewrite Heq. unfold split_at. subst l.
  destruct (min_length <=? len (slice_to _ _)); destruct (min_length <=? len (slice_from _ _));
    rewrite <- ?app_assoc; simpl; rewrite remove_first_middle by exact Hnot;
    rewrite ?app_nil_r; reflexivity.
Qed.

(** The split scenario of the specification: cut at 0x104 with a minimum of
    4, both halves survive. *)
Lemma split_strings_first_hit_witness :
  exists l1 s l2,
    [abcdefgh] = l1 ++ s :: l2 /\
    (forall x, In x l1 -> ~ (ss_offset x < 0x104 < ss_offset x + len (ss_string x))) /\
    ss_offset s < 0x104 < ss_offset s + len (ss_string s) /\
    let s1 := mkStaticString (slice_to (ss_string s) (0x104 - ss_offset s))
                (ss_offset s) UTF8 in
    let s2 := mkStaticString (slice_from (ss_string s) (0x104 - ss_offset s))
                0x104 UTF8 in
    ss_string s1 ++ ss_string s2 = ss_string s /\
    len (ss_string s1) = 0x104 - ss_offset s /\
    split_strings [abcdefgh] 0x104 4 =
      l1 ++ l2 ++ (if 4 <=? len (ss_string s1) then [s1] else [])
               ++ (if 4 <=? len (ss_string s2) then [s2] else []).
Proof.
  apply (split_strings_first_hit [abcdefgh] 0x104 4).
  exists abcdefgh. split; [left; reflexivity | vm_compute; split; reflexivity].
Defined.

(** C2 as stated fails: cutting "abcdefgh" at 0x103 does not leave "efgh". *)
Lemma split_below_minimum_is_not_efgh :
  split_strings [abcdefgh] 0x103 4 <> [mkStaticString (lit "efgh") 0x103 UTF8].
Proof. vm_compute. discriminate. Qed.

(** C2, amended: cutting "abcdefgh" (offset 0x100) at 0x103 with a minimum of
    4 leaves exactly one string, the five-character suffix "defgh" at 0x103;
    the three-character prefix "abc" is dropped. *)
Theorem split_below_minimum_keeps_defgh :
  split_strings [abcdefgh] 0x103 4 = [mkStaticString (lit "defgh") 0x103 UTF8].
Proof. vm_compute. reflexivity. Qed.

(** ** [extract_strings] *)

Section ExtractStringsFacts.

Variable scan : bytes -> list StaticString.
Variable MAX_STRING_LENGTH : Z.

Local Abbreviation body := (extract_strings_body MAX_STRING_LENGTH).

(** What a yielded string says about the candidate it comes from. *)
Lemma extract_strings_body_some (min_length : Z) (exclude : option (gset str))
    (c x : StaticString) :
  body min_length exclude c = Some x ->
  x = mkStaticString (strip_string (ss_string c)) (ss_offset c) (ss_encoding c) /\
  len (ss_string c) <= MAX_STRING_LENGTH /\
  ~ In (ss_string c) FP_STRINGS /\
  min_length <= len (strip_string (ss_string c)) /\
  excluded exclude (strip_string (ss_string c)) = false.
Proof.
  unfold extract_strings_body.
  destruct (Z.ltb_spec MAX_STRING_LENGTH (len (ss_string c))); [discriminate|].
  case_bool_decide as Hfp; [discriminate|].
  destruct (Z.ltb_spec (len (strip_string (ss_string c))) min_length); [discriminate|].
  destruct (excluded exclude _) eqn:Hex; [discriminate|].
  intros [= <-]. repeat split; auto.
  intros Hin. apply Hfp. apply list_elem_of_In. exact Hin.
Qed.

Lemma extract_strings_elem (buffer : bytes) (min_length : Z)
    (exclude : option (gset str)) (x : StaticString) :
  In x (extract_strings scan MAX_STRING_LENGTH buffer min_length exclude) <->
  exists c, In c (candidates scan buffer min_length) /\
            body min_length exclude c = Some x.
Proof.
  unfold extract_strings. rewrite <- list_elem_of_In, list_elem_of_omap.
  split; intros (c & Hc & Hx); exists c; split; auto;
    apply list_elem_of_In; exact Hc.
Qed.

Lemma candidates_scanned (buffer : bytes) (min_length : Z) (c : StaticString) :
  In c (candidates scan buffer min_length) -> In c (scan buffer).
Proof.
  unfold candidates. destruct (len buffer <? min_length); [intros [] | auto].
Qed.

(** C9: a string that [extract_strings] emits comes from a scanned
    candidate whose raw text has at most [MAX_STRING_LENGTH] characters;
    the turn of a longer candidate yields nothing, whatever the filter
    would have made of it. *)
Theorem extract_strings_skips_long_candidates (buffer : bytes) (min_length : Z)
    (exclude : option (gset str)) :
  Forall (fun x =>
    exists c, In c (scan buffer) /\
      len (ss_string c) <= MAX_STRING_LENGTH /\
      x = mkStaticString (strip_string (ss_string c)) (ss_offset c) (ss_encoding c))
    (extract_strings scan MAX_STRING_LENGTH buffer min_length exclude) /\
  Forall (fun c =>
    MAX_STRING_LENGTH < len (ss_string c) -> body min_length exclude c = None)
    (scan buffer).
Proof.
  split; apply List.Forall_forall.
  - intros x Hx. apply extract_strings_elem in Hx as (c & Hc & Hb).
    apply extract_strings_body_some in Hb as (-> & Hlen & _).
    exists c. split; [eapply candidates_scanned; exact Hc | auto].
  - intros c _ Hlong. unfold extract_strings_body.
    destruct (Z.ltb_spec MAX_STRING_LENGTH (len (ss_string c))); [reflexivity | lia].
Qed.

(** C6, amended: the turn of a candidate yields nothing when its raw text,
    as scanned and before the filter, is in the blocklist, or when its
    filtered text is shorter than [min_length]; the candidate then adds
    nothing to what [extract_strings] emits. *)
Theorem extract_strings_rejects (buffer : bytes) (min_length : Z)
    (exclude : option (gset str)) (before after : list StaticString)
    (c : StaticString) :
  candidates scan buffer min_length = before ++ c :: after ->
  In (ss_string c) FP_STRINGS \/ len (strip_string (ss_string c)) < min_length ->
  body min_length exclude c = None /\
  extract_strings scan MAX_STRING_LENGTH buffer min_length exclude =
    omap (body min_length exclude) before ++ omap (body min_length exclude) after.
Proof.
  intros Hcands Hrej.
  assert (Hnone : body min_length exclude c = None).
  { unfold extract_strings_body.
    destruct (MAX_STRING_LENGTH <? len (ss_string c)); [reflexivity|].
    case_bool_decide as Hfp; [reflexivity|].
    destruct (Z.ltb_spec (len (strip_string (ss_string c))) min_length);
      [reflexivity|].
    destruct Hrej as [Hin | Hshort]; [| lia].
    exfalso. apply Hfp. apply list_elem_of_In. exact Hin. }
  split; [exact Hnone|].
  unfold extract_strings. rewrite Hcands, omap_app. simpl.
  rewrite Hnone. reflexivity.
Qed.

End ExtractStringsFacts.

(** The blocklist scenario of the specification: the scanned candidate
    "Runtime Error!" with a minimum length of 4 is rejected. *)
Lemma extract_strings_rejects_witness :
  extract_strings_body max_string_length 4 None runtime_error = None /\
  extract_strings scan_ascii max_string_length (lit "Runtime Error!") 4 None =
    omap (extract_strings_body max_string_length 4 None) [] ++
    omap (extract_strings_body max_string_length 4 None) [].
Proof.
  apply (extract_strings_rejects scan_ascii max_string_length
           (lit "Runtime Error!") 4 None [] [] runtime_error).
  - vm_compute. reflexivity.
  - left. vm_compute. do 3 right. left. reflexivity.
Defined.

(** C6 as stated fails: the filtered text of the candidate
    "Runtime Error!VA" is the blocklisted "Runtime Error!", and it is
    emitted all the same, because the blocklist is consulted on the raw
    text only. *)
Lemma filtered_text_in_blocklist_is_emitted :
  In (strip_string (ss_string runtime_error_VA)) FP_STRINGS /\
  4 <= len (strip_string (ss_string runtime_error_VA)) /\
  extract_strings_body max_string_length 4 None runtime_error_VA = Some runtime_error /\
  extract_strings scan_ascii max_string_length (lit "Runtime Error!VA" ++ [0%N]) 4 None
    = [runtime_error].
Proof.
  split; [vm_compute; do 3 right; left; reflexivity|].
  split; [vm_compute; discriminate|].
  split; vm_compute; reflexivity.
Qed.

(** ** The tightstring engine *)

Lemma excluded_false (e : gset str) (x : str) :
  excluded (Some e) x = false -> x ∉ e.
Proof.
  unfold excluded. intros H Hin.
  rewrite (bool_decide_eq_true_2 _ Hin), andb_true_r in H.
  apply negb_false_iff, bool_decide_eq_true in H. set_solver.
Qed.

Section TightstringFacts.

Variable scan : bytes -> list StaticString.
Variable MAX_STRING_LENGTH : Z.
Variable contexts_of : Z -> list TightLoop -> list CallContext * gset str.
Variable pointer_size : Z.

Local Abbreviation of_candidates :=
  (tightstrings_of_candidates MAX_STRING_LENGTH pointer_size).
Local Abbreviation of_contexts :=
  (tightstrings_of_contexts scan MAX_STRING_LENGTH pointer_size).
Local Abbreviation of_function :=
  (tightstrings_of_function scan MAX_STRING_LENGTH contexts_of pointer_size).

Lemma of_candidates_fresh (fva : Z) (ctx : CallContext) (min_length : Z)
    (cands : list StaticString) :
  forall before out after,
    of_candidates fva ctx cands min_length before = (out, after) ->
    fresh_run fva before out after.
Proof.
  induction cands as [|c cands IH]; intros before out after; simpl.
  - intros [= <- <-]. repeat split; [set_solver | constructor | constructor].
  - destruct (extract_strings_body _ _ _ c) as [s|] eqn:Hbody; [|apply IH].
    destruct (of_candidates fva ctx cands min_length (before ∪ {[ss_string s]}))
      as [out0 after0] eqn:Hrec.
    intros [= <- <-].
    apply IH in Hrec as (Hafter & Hnodup & Hall).
    apply extract_strings_body_some in Hbody as (-> & _ & _ & _ & Hex).
    apply excluded_false in Hex. simpl in *.
    repeat split; simpl.
    + rewrite Hafter. set_solver.
    + constructor; [|exact Hnodup].
      rewrite list_elem_of_fmap. intros (ts & Heq & Hin).
      rewrite Forall_forall in Hall. destruct (Hall ts Hin) as [Hnotin _].
      apply Hnotin. rewrite <- Heq. set_solver.
    + constructor.
      * simpl. split; [|reflexivity]. exact Hex.
      * eapply Forall_impl; [exact Hall|]. simpl. intros ts [Hnotin Hf].
        split; [set_solver | exact Hf].
Qed.

Lemma fresh_run_app (fva : Z) (e0 e1 e2 : gset str) (out1 out2 : list TightString) :
  fresh_run fva e0 out1 e1 -> fresh_run fva e1 out2 e2 ->
  fresh_run fva e0 (out1 ++ out2) e2.
Proof.
  intros (H1 & N1 & F1) (H2 & N2 & F2). subst e1 e2.
  repeat split.
  - rewrite map_app, list_to_set_app_L. set_solver.
  - rewrite map_app. apply NoDup_app. split; [exact N1|]. split; [|exact N2].
    intros x Hx1 Hx2.
    apply list_elem_of_fmap in Hx2 as (ts & -> & Hin).
    rewrite Forall_forall in F2. destruct (F2 ts Hin) as [Hnotin _].
    apply Hnotin. apply elem_of_union_r, elem_of_list_to_set. exact Hx1.
  - apply Forall_app. split; [exact F1|].
    eapply Forall_impl; [exact F2|]. simpl. intros ts [Hnotin Hf].
    split; [set_solver | exact Hf].
Qed.

Lemma of_contexts_fresh (fva : Z) (min_length : Z) (ctxs : list CallContext) :
  forall before out after,
    of_contexts fva ctxs min_length before = (out, after) ->
    fresh_run fva before out after.
Proof.
  induction ctxs as [|ctx ctxs IH]; intros before out after; simpl.
  - intros [= <- <-]. repeat split; [set_solver | constructor | constructor].
  - destruct (of_candidates fva ctx _ min_length before) as [out1 e1] eqn:H1.
    destruct (of_contexts fva ctxs min_length e1) as [out2 e2] eqn:H2.
    intros [= <- <-].
    eapply fresh_run_app; [eapply of_candidates_fresh; exact H1 | apply IH; exact H2].
Qed.

(** One function: every yielded text is new with respect to the pre-loop
    set, all yielded texts differ, and all carry the function's address. *)
Lemma of_function_fresh (fva : Z) (tloops : list TightLoop) (min_length : Z) :
  NoDup (map ts_string (of_function fva tloops min_length)) /\
  Forall (fun ts => (ts_string ts ∉ snd (contexts_of fva tloops)) /\
                    ts_function ts = fva)
    (of_function fva tloops min_length).
Proof.
  unfold tightstrings_of_function.
  destruct (contexts_of fva tloops) as [ctxs pre]. simpl.
  destruct (of_contexts fva ctxs min_length pre) as [out after] eqn:H.
  apply of_contexts_fresh in H as (_ & Hn & Hf). simpl. split; assumption.
Qed.

(** C3: every yielded TightString carries a text outside the pre-loop set
    of its function, and no two TightStrings yielded for one function
    carry the same text. *)
Theorem tightstrings_fresh_and_distinct (tightloop_functions : list (Z * list TightLoop))
    (min_length : Z) :
  NoDup (map fst tightloop_functions) ->
  Forall (fun ts =>
    exists tloops, In (ts_function ts, tloops) tightloop_functions /\
      ts_string ts ∉ snd (contexts_of (ts_function ts) tloops))
    (extract_tightstrings scan MAX_STRING_LENGTH contexts_of pointer_size
       tightloop_functions min_length) /\
  NoDup (map (fun ts => (ts_function ts, ts_string ts))
    (extract_tightstrings scan MAX_STRING_LENGTH contexts_of pointer_size
       tightloop_functions min_length)).
Proof.
  unfold extract_tightstrings.
  induction tightloop_functions as [|[fva tloops] items IH]; intros Hkeys; simpl.
  - split; constructor.
  - apply NoDup_cons in Hkeys as [Hfresh Hkeys].
    destruct (IH Hkeys) as [IHall IHnodup].
    destruct (of_function_fresh fva tloops min_length) as [Hn Hf].
    split.
    + apply Forall_app. split.
      * eapply Forall_impl; [exact Hf|]. simpl. intros ts [Hnotin ->].
        exists tloops. split; [left; reflexivity | exact Hnotin].
      * eapply Forall_impl; [exact IHall|]. simpl. intros ts (tl & Hin & Hnotin).
        exists tl. split; [right; exact Hin | exact Hnotin].
    + rewrite map_app. apply NoDup_app. split; [|split; [|exact IHnodup]].
      * clear -Hn Hf. induction Hf as [|ts out [_ Hfn] Hf IHf]; [constructor|].
        simpl in *. apply NoDup_cons in Hn as [Hhd Hn].
        constructor; [|apply IHf; exact Hn].
        intros Hin. apply Hhd.
        apply list_elem_of_fmap in Hin as (ts' & Heq & Hin').
        apply list_elem_of_fmap. exists ts'. split; [congruence | exact Hin'].
      * intros key Hk1 Hk2.
        apply list_elem_of_fmap in Hk1 as (ts1 & -> & Hin1).
        apply list_elem_of_fmap in Hk2 as (ts2 & Heq & Hin2).
        rewrite Forall_forall in Hf. destruct (Hf ts1 Hin1) as [_ Hfn1].
        rewrite Forall_forall in IHall.
        destruct (IHall ts2 Hin2) as (tl & Hitem & _).
        apply Hfresh. apply list_elem_of_fmap.
        exists (ts_function ts2, tl). simpl. split; [congruence|].
        apply list_elem_of_In. exact Hitem.
Qed.

End TightstringFacts.

(** The exclusion scenario of the specification: "SECRET" was on the stack
    before the loop, "SECRET" and "PASS" are there after it, only "PASS" is
    yielded. *)
Example tightstring_exclude_scenario :
  map ts_string
    (extract_tightstrings scan_ascii max_string_length sample_contexts 4
       sample_functions 4) = [lit "PASS"].
Proof. vm_compute. reflexivity. Qed.

Lemma tightstrings_fresh_and_distinct_witness :
  Forall (fun ts =>
    exists tloops, In (ts_function ts, tloops) sample_functions /\
      ts_string ts ∉ snd (sample_contexts (ts_function ts) tloops))
    (extract_tightstrings scan_ascii max_string_length sample_contexts 4
       sample_functions 4) /\
  NoDup (map (fun ts => (ts_function ts, ts_string ts))
    (extract_tightstrings scan_ascii max_string_length sample_contexts 4
       sample_functions 4)).
Proof.
  apply (tightstrings_fresh_and_distinct scan_ascii max_string_length
           sample_contexts 4 sample_functions 4).
  simpl. constructor; [|constructor]. intros Hin. inversion Hin.
Defined.

(** ** The matcher *)

Lemma reach_refl (st : mstate) : reach st st.
Proof. split; reflexivity. Qed.

Lemma reach_trans (st1 st2 st3 : mstate) :
  reach st1 st2 -> reach st2 st3 -> reach st1 st3.
Proof. unfold reach. intros [? ?] [? ?]. split; lia. Qed.

Lemma starts_with_length (a b : str) :
  starts_with a b = true -> (length a <= length b)%nat.
Proof.
  revert b. induction a as [|x a IH]; intros [|y b]; simpl; try lia; try discriminate.
  intros H. apply andb_true_iff in H as [_ H]. apply IH in H. lia.
Qed.

(** The repetition hands the continuation only states further on. *)
Lemma rep_loop_ext (body : mstate -> cont -> option mstate)
    (greedy : bool) (lo : nat) (hi : option nat) (k1 k2 : cont) :
  (forall st c1 c2, (forall st', reach st st' -> c1 st' = c2 st') ->
     body st c1 = body st c2) ->
  forall fuel i st,
    (forall st', reach st st' -> k1 st' = k2 st') ->
    rep_loop body greedy lo hi fuel i st k1 = rep_loop body greedy lo hi fuel i st k2.
Proof.
  intros Hbody. induction fuel as [|fuel IH]; intros i st Hk; [reflexivity|].
  cbn [rep_loop].
  rewrite (Hk st (reach_refl st)).
  rewrite (Hbody st _
    (fun st' => if (i <? lo)%nat || (m_pos st <? m_pos st')%nat
                then rep_loop body greedy lo hi fuel (S i) st' k2 else None));
    [reflexivity|].
  intros st' Hst'.
  destruct ((i <? lo)%nat || (m_pos st <? m_pos st')%nat); [|reflexivity].
  apply IH. intros st'' Hst''. apply Hk. eapply reach_trans; eassumption.
Qed.

Lemma run_ext (r : re) :
  forall st k1 k2,
    (forall st', reach st st' -> k1 st' = k2 st') ->
    run r st k1 = run r st k2.
Proof.
  assert (Hstep : forall ok st k1 k2,
            (forall st', reach st st' -> k1 st' = k2 st') ->
            step1 ok st k1 = step1 ok st k2).
  { intros ok st k1 k2 Hk. unfold step1.
    destruct (m_rest st) as [|x t] eqn:Hrest; [reflexivity|].
    destruct (ok x); [|reflexivity].
    apply Hk. unfold reach, ahead. rewrite Hrest. simpl. lia. }
  induction r as [|c| |negated ranges| | |a IHa b IHb|a IHa b IHb
                 |greedy lo hi a IHa|a IHa|];
    intros st k1 k2 Hk; cbn [run]; try (apply Hstep; exact Hk).
  - apply Hk, reach_refl.
  - rewrite (Hk st (reach_refl st)). reflexivity.
  - rewrite (Hk st (reach_refl st)). reflexivity.
  - apply IHa. intros st' Hst'. apply IHb. intros st'' Hst''.
    apply Hk. eapply reach_trans; eassumption.
  - rewrite (IHa st k1 k2 Hk), (IHb st k1 k2 Hk). reflexivity.
  - apply rep_loop_ext; [exact IHa | exact Hk].
  - apply IHa. intros st' Hst'. apply Hk. exact Hst'.
  - destruct (m_grp st) as [w|]; [|reflexivity].
    destruct (starts_with w (m_rest st)) eqn:Hw; [|reflexivity].
    apply Hk. apply starts_with_length in Hw.
    unfold reach, ahead. cbn [m_pos m_rest]. rewrite length_skipn. lia.
Qed.

(** Past [lo - i] plus the number of characters ahead, more fuel changes
    nothing: the repetition never stops for want of fuel. *)
Lemma rep_loop_fuel (a : re) (greedy : bool) (lo : nat) (hi : option nat) (k : cont) :
  forall fuel1 fuel2 i st,
    (lo - i + ahead st < fuel1)%nat -> (lo - i + ahead st < fuel2)%nat ->
    rep_loop (run a) greedy lo hi fuel1 i st k =
    rep_loop (run a) greedy lo hi fuel2 i st k.
Proof.
  induction fuel1 as [|fuel1 IH]; intros fuel2 i st H1 H2; [lia|].
  destruct fuel2 as [|fuel2]; [lia|].
  cbn [rep_loop].
  rewrite (run_ext a st _
    (fun st' => if (i <? lo)%nat || (m_pos st <? m_pos st')%nat
                then rep_loop (run a) greedy lo hi fuel2 (S i) st' k else None));
    [reflexivity|].
  intros st' [Hpos Hahead].
  destruct (Nat.ltb_spec i lo); cbn [orb].
  - apply IH; lia.
  - destruct (Nat.ltb_spec (m_pos st) (m_pos st')); [|reflexivity].
    apply IH; lia.
Qed.

Lemma run_rep_fuel (a : re) (greedy : bool) (lo : nat) (hi : option nat)
    (st : mstate) (k : cont) (fuel : nat) :
  (lo + ahead st < fuel)%nat ->
  rep_loop (run a) greedy lo hi fuel 0 st k = run (Rep greedy lo hi a) st k.
Proof.
  intros H. cbn [run]. apply rep_loop_fuel; unfold ahead in *; lia.
Qed.

(** An attempt that fails with a continuation fails with every
    continuation that accepts no more. *)
Lemma rep_loop_fails (body : mstate -> cont -> option mstate)
    (greedy : bool) (lo : nat) (hi : option nat) (k1 k2 : cont) :
  (forall st c1 c2, (forall st', c1 st' = None -> c2 st' = None) ->
     body st c1 = None -> body st c2 = None) ->
  (forall st', k1 st' = None -> k2 st' = None) ->
  forall fuel i st,
    rep_loop body greedy lo hi fuel i st k1 = None ->
    rep_loop body greedy lo hi fuel i st k2 = None.
Proof.
  intros Hbody Hk. induction fuel as [|fuel IH]; intros i st; [reflexivity|].
  cbn [rep_loop].
  set (K1 := fun st' => if (i <? lo)%nat || (m_pos st <? m_pos st')%nat
                        then rep_loop body greedy lo hi fuel (S i) st' k1 else None).
  set (K2 := fun st' => if (i <? lo)%nat || (m_pos st <? m_pos st')%nat
                        then rep_loop body greedy lo hi fuel (S i) st' k2 else None).
  assert (HK : forall st', K1 st' = None -> K2 st' = None).
  { intros st'. unfold K1, K2.
    destruct ((i <? lo)%nat || (m_pos st <? m_pos st')%nat); [apply IH | reflexivity]. }
  assert (Hagain : (if below i hi then body st K1 else None) = None ->
                   (if below i hi then body st K2 else None) = None).
  { destruct (below i hi); [apply Hbody; exact HK | reflexivity]. }
  destruct (i <? lo)%nat; [exact Hagain|].
  destruct greedy.
  - destruct (if below i hi then body st K1 else None); [discriminate|].
    intros Hk1. rewrite Hagain by reflexivity. apply Hk. exact Hk1.
  - destruct (k1 st) eqn:Hk1; [discriminate|].
    intros H1. rewrite (Hk _ Hk1). apply Hagain. exact H1.
Qed.

Lemma run_fails (r : re) :
  forall st k1 k2,
    (forall st', k1 st' = None -> k2 st' = None) ->
    run r st k1 = None -> run r st k2 = None.
Proof.
  induction r as [|c| |negated ranges| | |a IHa b IHb|a IHa b IHb
                 |greedy lo hi a IHa|a IHa|];
    intros st k1 k2 Hk; cbn [run].
  - apply Hk.
  - unfold step1. destruct (m_rest st) as [|x t]; [reflexivity|].
    destruct (N.eqb c x); [apply Hk | reflexivity].
  - unfold step1. destruct (m_rest st) as [|x t]; [reflexivity|].
    destruct (negb (N.eqb x newline)); [apply Hk | reflexivity].
  - unfold step1. destruct (m_rest st) as [|x t]; [reflexivity|].
    destruct (xorb negated (in_ranges x ranges)); [apply Hk | reflexivity].
  - destruct (Nat.eqb (m_pos st) 0); [apply Hk | reflexivity].
  - destruct (at_eol st); [apply Hk | reflexivity].
  - apply IHa. intros st'. apply IHb. exact Hk.
  - destruct (run a st k1) eqn:Ha; [discriminate|].
    intros Hb. rewrite (IHa _ _ _ Hk Ha). apply (IHb _ _ _ Hk Hb).
  - apply rep_loop_fails; [exact IHa | exact Hk].
  - apply IHa. intros st'. apply Hk.
  - destruct (m_grp st) as [w|]; [|reflexivity].
    destruct (starts_with w (m_rest st)); [apply Hk | reflexivity].
Qed.

(** Where the pattern matches nowhere, substitution changes nothing. *)
Lemma sub_loop_no_match (r : re) (rest : str) :
  forall pos, search_from r pos rest = None -> sub_loop r pos 0 rest = rest.
Proof.
  induction rest as [|c t IH]; intros pos Hs; [reflexivity|].
  cbn [search_from sub_loop] in *. unfold match_at in Hs.
  destruct (run r (mkState pos (c :: t) None) Some) eqn:Hm; [discriminate|].
  rewrite (run_fails r _ Some (advancing pos)); [|discriminate|exact Hm].
  f_equal. apply IH. exact Hs.
Qed.

Lemma re_sub_no_match (r : re) (s : str) :
  re_search r s = None -> re_sub r s = s.
Proof. apply sub_loop_no_match. Qed.

(** Substituting the strict character class keeps the plain characters. *)
Lemma sub_loop_special_chars (rest : str) :
  forall pos,
    sub_loop FP_FILTER_STRICT_SPECIAL_CHARS pos 0 rest = List.filter plain rest.
Proof.
  induction rest as [|c t IH]; intros pos; [reflexivity|].
  cbn [sub_loop List.filter].
  unfold FP_FILTER_STRICT_SPECIAL_CHARS at 1.
  cbn [run step1 m_rest m_pos m_grp]. fold (plain c).
  destruct (plain c); cbn [xorb negb].
  - rewrite IH. reflexivity.
  - unfold advancing. cbn [m_pos].
    replace (pos <? S pos)%nat with true by (symmetry; apply Nat.ltb_lt; lia).
    cbn [m_pos]. replace (S pos - pos - 1)%nat with 0%nat by lia. apply IH.
Qed.

Lemma re_sub_special_chars (s : str) :
  re_sub FP_FILTER_STRICT_SPECIAL_CHARS s = List.filter plain s.
Proof. apply sub_loop_special_chars. Qed.

Lemma filter_twice {A} (f : A -> bool) (l : list A) :
  List.filter f (List.filter f l) = List.filter f l.
Proof.
  induction l as [|x l IH]; [reflexivity|]. simpl.
  destruct (f x) eqn:Hx; simpl; rewrite ?Hx, IH; reflexivity.
Qed.

(** ** [strip_string] *)

(** C4 as stated fails: one pass takes one suffix off, the next pass the
    suffix that the first one exposed. *)
Lemma strip_string_is_not_idempotent :
  strip_string (lit "helloWorldVAVA") = lit "helloWorldVA" /\
  strip_string (strip_string (lit "helloWorldVAVA")) = lit "helloWorld" /\
  strip_string (strip_string (lit "helloWorldVAVA")) <>
    strip_string (lit "helloWorldVAVA").
Proof.
  split; [vm_compute; reflexivity|].
  split; [vm_compute; reflexivity|].
  vm_compute. discriminate.
Qed.

(** ** The strict-level gate *)

Lemma is_Some_first {A} (a b : option A) :
  is_Some (match a with Some r => Some r | None => b end) <-> is_Some a \/ is_Some b.
Proof.
  destruct a; split; intros H; eauto.
  - destruct H as [H|H]; [destruct H; discriminate | exact H].
Qed.

Lemma is_Some_None_false {A} : is_Some (@None A) <-> False.
Proof. split; [intros [x Hx]; discriminate | tauto]. Qed.

(** A repetition [.*] or [.*?]: whichever way it prefers, an attempt
    succeeds exactly when the rest of the pattern succeeds after some
    number of characters other than the newline. *)
Lemma rep_any_spec (greedy : bool) (body : mstate -> cont -> option mstate)
    (k : cont) (K : str -> bool) :
  (forall st k', body st k' = step1 (fun x => negb (N.eqb x newline)) st k') ->
  (forall pos rest grp, is_Some (k (mkState pos rest grp)) <-> K rest = true) ->
  forall rest fuel i pos grp,
    (length rest < fuel)%nat ->
    is_Some (rep_loop body greedy 0 None fuel i (mkState pos rest grp) k)
    <-> after_any K rest = true.
Proof.
  intros Hbody Hk.
  assert (Hcase : forall a b : option mstate,
            is_Some (if greedy
                     then match a with Some r => Some r | None => b end
                     else match b with Some r => Some r | None => a end)
            <-> is_Some b \/ is_Some a).
  { intros a b. destruct greedy; rewrite is_Some_first; tauto. }
  induction rest as [|c t IH]; intros fuel i pos grp Hfuel;
    (destruct fuel as [|fuel]; [simpl in Hfuel; lia|]);
    cbn [rep_loop below Nat.ltb Nat.leb after_any]; rewrite Hbody;
    cbn [step1 m_rest m_pos m_grp orb].
  - rewrite orb_false_r, <- (Hk pos [] grp).
    destruct greedy; destruct (k _); rewrite ?is_Some_None_false; tauto.
  - rewrite Hcase, Hk, orb_true_iff.
    destruct (N.eqb c newline); cbn [negb andb].
    + rewrite is_Some_None_false. intuition discriminate.
    + replace (pos <=? pos)%nat with true by (symmetry; apply Nat.leb_le; lia).
      rewrite IH by (simpl in Hfuel; lia). reflexivity.
Qed.

Lemma closing_bracket_spec (pos : nat) (rest : str) (grp : option str) :
  is_Some (run (Seq (Chr (ch "]")) Eol) (mkState pos rest grp) Some)
  <-> closing_bracket rest = true.
Proof.
  destruct rest as [|c t]; cbn [run step1 m_rest closing_bracket].
  - rewrite is_Some_None_false. intuition discriminate.
  - destruct (N.eqb (ch "]") c); cbn [andb].
    + unfold at_eol, ends_here. cbn [m_rest].
      destruct t as [|d [|e t]]; [| destruct (N.eqb d newline) |];
        rewrite ?is_Some_None_false; split; intros H; eauto; discriminate.
    + rewrite is_Some_None_false. intuition discriminate.
Qed.

(** A bracketed name: an opening bracket, then [closes]. *)
Lemma bracket_alternative (greedy : bool) (s : str) :
  is_Some (match_at
    (cat [Bol; Chr (ch "["); Rep greedy 0 None Any; Chr (ch "]"); Eol]) 0 s)
  <-> match s with
      | c :: t => N.eqb (ch "[") c && closes t = true
      | [] => False
      end.
Proof.
  unfold match_at.
  destruct s as [|c t]; cbn [cat run m_pos Nat.eqb step1 m_rest m_grp];
    [apply is_Some_None_false|].
  destruct (N.eqb (ch "[") c); cbn [andb].
  - cbn [m_rest m_pos m_grp]. unfold closes.
    apply rep_any_spec; [reflexivity | | simpl; lia].
    intros pos rest grp. apply closing_bracket_spec.
  - rewrite is_Some_None_false. intuition discriminate.
Qed.

Lemma single_range (x b : N) : ((x <=? b) && (b <=? x))%N = N.eqb x b.
Proof.
  destruct (N.eqb_spec x b) as [->|Hne].
  - rewrite N.leb_refl. reflexivity.
  - destruct (N.leb_spec x b), (N.leb_spec b x); try reflexivity. lia.
Qed.

(** The second alternative of the include pattern, tried at offset 0. *)
Lemma format_alternative (s : str) :
  is_Some (match_at (cat [Chr (ch "%"); Cls false (chars "sd")]) 0 s)
  <-> starts_with_format s = true.
Proof.
  unfold match_at, starts_with_format.
  destruct s as [|a [|b t]]; cbn [cat run step1 m_rest m_pos m_grp lit
    list_ascii_of_string map starts_with];
    try (rewrite is_Some_None_false; intuition discriminate).
  - destruct (N.eqb _ a); cbn [andb orb];
      rewrite is_Some_None_false; intuition discriminate.
  - change (N_of_ascii "%") with (ch "%").
    destruct (N.eqb (ch "%") a); cbn [andb orb xorb];
      [|rewrite is_Some_None_false; intuition discriminate].
    unfold in_ranges, chars. cbn [lit list_ascii_of_string map existsb fst snd].
    rewrite !single_range, !andb_true_r, orb_false_r.
    destruct (N.eqb _ b || N.eqb _ b);
      [split; eauto | rewrite is_Some_None_false; intuition discriminate].
Qed.

Lemma matches_bracketed_spec (s : str) :
  matches_bracketed s = true <->
  is_Some (match_at
    (cat [Bol; Chr (ch "["); Rep false 0 None Any; Chr (ch "]"); Eol]) 0 s).
Proof.
  unfold matches_bracketed, re_match, BRACKETED.
  rewrite bool_decide_eq_true, !bracket_alternative. reflexivity.
Qed.

(** [re.match] of the include pattern: a bracketed name, or a text that
    starts with a format directive. *)
Lemma include_match_spec (s : str) :
  is_Some (re_match FP_FILTER_STRICT_INCLUDE s) <->
  matches_bracketed s = true \/ starts_with_format s = true.
Proof.
  rewrite matches_bracketed_spec, <- format_alternative.
  unfold re_match, match_at, FP_FILTER_STRICT_INCLUDE.
  cbn [run]. apply is_Some_first.
Qed.

Lemma strict_gate_anchored_eq (s : str) :
  strict_gate s = strict_gate_anchored s.
Proof.
  unfold strict_gate, strict_gate_anchored, MAX_STRING_LENGTH_FILTER_STRICT.
  rewrite <- andb_assoc. f_equal. rewrite <- negb_orb. f_equal.
  apply eq_true_iff_eq.
  rewrite bool_decide_eq_true, orb_true_iff. apply include_match_spec.
Qed.

(** C5 as stated fails: "ab%s" comes out of the strip level unchanged, has
    four characters and contains a format directive, and the strict level
    runs on it all the same and takes the percent sign away. *)
Lemma format_inside_is_not_spared :
  strip_level (lit "ab%s") = lit "ab%s" /\
  len (lit "ab%s") <= 6 /\
  contains_format (lit "ab%s") = true /\
  strict_gate_as_specified (lit "ab%s") = false /\
  strict_gate (lit "ab%s") = true /\
  strip_string (lit "ab%s") = lit "abs".
Proof. vm_compute. repeat split; solve [reflexivity | discriminate]. Qed.

(** C5, amended: the strict level (the [^O.*A$] form removed, then every
    character outside [[A-Za-z0-9.]] removed) is applied to the text that
    leaves the strip level exactly when that text has at most 6 characters,
    does not match [^\[.*\]$] and does not start with [%s] or [%d]; a text
    that starts with [%s] or [%d] is returned as the strip level left it. *)
Theorem strict_level_gate (s : str) :
  strict_gate (strip_level s) =
    (len (strip_level s) <=? 6) && negb (matches_bracketed (strip_level s))
      && negb (starts_with_format (strip_level s)) /\
  strip_string s =
    (if strict_gate (strip_level s)
     then List.filter plain (re_sub FP_FILTER_STRICT_KNOWN_FP (strip_level s))
     else strip_level s) /\
  (starts_with_format (strip_level s) = true -> strip_string s = strip_level s).
Proof.
  split; [apply strict_gate_anchored_eq|]. split.
  - unfold strip_string. destruct (strict_gate (strip_level s)); [|reflexivity].
    unfold strict_level. simpl. apply re_sub_special_chars.
  - intros Hfmt. unfold strip_string.
    rewrite strict_gate_anchored_eq. unfold strict_gate_anchored.
    rewrite Hfmt, andb_false_r. reflexivity.
Qed.

(** A bracketed name and a text that starts with a format directive are
    returned unchanged. *)
Example strict_level_spares :
  strip_string (lit "[ESC]") = lit "[ESC]" /\
  strip_string (lit "%d.dll") = lit "%d.dll".
Proof. vm_compute. repeat split; reflexivity. Qed.

(** ** The wide-string repair pass *)

Section RepairFacts.

Variable extract_string : bytes -> b2s_string.

Local Abbreviation fix_loop' := (fix_loop extract_string).

Lemma origin_mono (all : list b2s_string) (min_length : Z) (buffer : bytes)
    (x : b2s_string) :
  fixup_of extract_string all min_length buffer x ->
  origin extract_string all min_length buffer x.
Proof. intros H. right. exact H. Qed.

(** The loop adds one element for every result that is not wide, each
    of them such a result itself or a pending fix-up. *)
Lemma fix_loop_output (all : list b2s_string) (min_length : Z) (buffer : bytes)
    (strings : list b2s_string) :
  forall acc last out,
    (forall x, In x strings -> In x all) ->
    (forall f, last = Some f -> fixup_of extract_string all min_length buffer f) ->
    fix_loop' strings min_length buffer acc last = Ok out ->
    exists out',
      out = acc ++ out' /\
      length out' = length (List.filter (fun x => negb (is_wide x)) strings) /\
      Forall (origin extract_string all min_length buffer) out'.
Proof.
  induction strings as [|string strings IH]; intros acc last out Hall Hlast; simpl.
  - intros [= <-]. exists []. rewrite app_nil_r. repeat split. constructor.
  - assert (Hin : In string all) by (apply Hall; left; reflexivity).
    assert (Hall' : forall x, In x strings -> In x all)
      by (intros x Hx; apply Hall; right; exact Hx).
    unfold is_wide at 1.
    destruct (String.eqb (kind_of string) "WIDE_STRING") eqn:Hkind; cbn [negb].
    + destruct (encode_utf16le_ignore (text_of string)) as [|sd0 sd] eqn:Hsd;
        [discriminate|].
      destruct (N.eqb sd0 0) eqn:Hzero; [|apply IH; assumption].
      apply IH; [assumption|].
      intros f Hf.
      destruct (Z.ltb_spec (len (text_of (rescan extract_string buffer
                  (fst (span_of string))))) min_length); [discriminate|].
      injection Hf as <-.
      exists string. unfold is_wide, first_byte_zero. rewrite Hkind, Hsd.
      repeat split; assumption.
    + intros Hrun.
      apply IH in Hrun as (out' & -> & Hlen & Hfrom);
        [| assumption | discriminate].
      eexists (_ :: out'). rewrite <- app_assoc. split; [reflexivity|].
      split; [simpl; rewrite Hlen; reflexivity|].
      constructor; [|exact Hfrom].
      destruct last as [f|].
      * destruct (contains (text_of string) (text_of f)).
        -- right. apply Hlast. reflexivity.
        -- left. split; [exact Hin | exact Hkind].
      * left. split; [exact Hin | exact Hkind].
Qed.

(** The pass completes when every wide text encodes to something. *)
Lemma fix_loop_completes (min_length : Z) (buffer : bytes)
    (strings : list b2s_string) :
  wide_texts_encode strings ->
  forall acc last, exists out,
    fix_loop' strings min_length buffer acc last = Ok out.
Proof.
  induction strings as [|string strings IH]; intros Hwide acc last; simpl.
  - eauto.
  - assert (Hwide' : wide_texts_encode strings)
      by (intros r Hr; apply Hwide; right; exact Hr).
    destruct (String.eqb (kind_of string) "WIDE_STRING") eqn:Hkind;
      [|apply IH; exact Hwide'].
    destruct (encode_utf16le_ignore (text_of string)) as [|sd0 sd] eqn:Hsd.
    + exfalso. apply (Hwide string); [left; reflexivity | exact Hkind | exact Hsd].
    + destruct (N.eqb sd0 0); apply IH; exact Hwide'.
Qed.

(** C7, amended: when the wide result at offset 0 has a text [w] whose
    UTF-16LE encoding starts with a zero byte and the scan from offset 1
    finds the UTF-8 string "foo", the fix-up ("foo", UTF8, (1, 4), true)
    replaces the following result "oo".  The text "foo" itself encodes
    with the first byte 0x66: with it the wide result is dropped and "oo"
    is emitted as it came. *)
Theorem wide_fixup_replaces_substring (w : str) (buffer : bytes) :
  first_byte_zero (w, "WIDE_STRING"%string, (0, 6), true) = true ->
  extract_string (slice_from buffer 1) = (lit "foo", "UTF8"%string, (0, 3), true) ->
  fix_b2s_wide_strings extract_string
    [(w, "WIDE_STRING"%string, (0, 6), true); oo_utf8] 2 buffer = Ok [foo_fixup] /\
  fix_b2s_wide_strings extract_string [foo_wide; oo_utf8] 2 buffer = Ok [oo_utf8].
Proof.
  intros Hzero Hscan. split; [|reflexivity].
  unfold fix_b2s_wide_strings, first_byte_zero in *. cbn [fix_loop] .
  cbn [text_of kind_of span_of fst snd String.eqb Ascii.eqb Bool.eqb] in *.
  destruct (encode_utf16le_ignore w) as [|sd0 sd]; [discriminate|].
  rewrite Hzero. unfold rescan. change (0 + 1) with 1. rewrite Hscan.
  reflexivity.
Qed.

End RepairFacts.

Lemma wide_fixup_replaces_substring_witness :
  fix_b2s_wide_strings scan_one
    [(shifted_text, "WIDE_STRING"%string, (0, 6), true); oo_utf8] 2 shifted_buffer
    = Ok [foo_fixup] /\
  fix_b2s_wide_strings scan_one [foo_wide; oo_utf8] 2 shifted_buffer = Ok [oo_utf8].
Proof.
  apply (wide_fixup_replaces_substring scan_one shifted_text shifted_buffer);
    vm_compute; reflexivity.
Defined.

(** C7 as stated fails: the UTF-16LE encoding of "foo" starts with the byte
    0x66, so no fix-up is taken and the output is the result "oo" as it
    came, not the fix-up at (1, 4). *)
Lemma foo_is_not_repaired :
  encode_utf16le_ignore (lit "foo") = [0x66; 0; 0x6F; 0; 0x6F; 0]%N /\
  fix_b2s_wide_strings scan_one [foo_wide; oo_utf8] 2 foo_wide_buffer = Ok [oo_utf8] /\
  fix_b2s_wide_strings scan_one [foo_wide; oo_utf8] 2 foo_wide_buffer <> Ok [foo_fixup].
Proof.
  split; [vm_compute; reflexivity|].
  split; [vm_compute; reflexivity|].
  vm_compute. discriminate.
Qed.

(** C10 as stated fails: the scan one byte after the start of a wide result
    may itself report a wide string, which then replaces a later result. *)
Lemma wide_fixup_reaches_output :
  fix_b2s_wide_strings scan_one wide_results 2 wide_buffer = Ok [abcd_wide] /\
  is_wide abcd_wide = true.
Proof. split; vm_compute; reflexivity. Qed.

(** ** The blob engine *)

(** An image without a read-only section gives nothing either. *)
Example blob_engine_without_rdata : blob_strings_of bare_image 4 = Ok [].
Proof. reflexivity. Qed.

(** * Further properties *)

(** ** More on [split_strings] *)

Lemma split_strings_loop_no_hit (pending all : list StaticString)
    (off min_length : Z) :
  (forall s, In s pending -> inside off s = false) ->
  split_strings_loop pending all off min_length = all.
Proof.
  induction pending as [|x pending IH]; intros Hno; simpl; [reflexivity|].
  rewrite (Hno x) by (left; reflexivity).
  apply IH. intros s Hs. apply Hno. right. exact Hs.
Qed.

(** The two ways a call can go. *)
Lemma split_strings_cases (l : list StaticString) (off min_length : Z) :
  ((forall s, In s l -> inside off s = false) /\ split_strings l off min_length = l) \/
  exists l1 s l2,
    l = l1 ++ s :: l2 /\
    (forall x, In x l1 -> inside off x = false) /\
    inside off s = true /\
    split_strings l off min_length =
      l1 ++ l2 ++
      (if min_length <=? len (slice_to (ss_string s) (off - ss_offset s))
       then [mkStaticString (slice_to (ss_string s) (off - ss_offset s))
               (ss_offset s) UTF8] else []) ++
      (if min_length <=? len (slice_from (ss_string s) (off - ss_offset s))
       then [mkStaticString (slice_from (ss_string s) (off - ss_offset s))
               off UTF8] else []).
Proof.
  destruct (existsb (inside off) l) eqn:Hex.
  - right. apply existsb_exists in Hex as (s0 & Hin & Hs0).
    destruct (split_strings_loop_first_hit l l off min_length)
      as (l1 & s & l2 & Hl & Hl1 & Hs & Heq); [eauto|].
    exists l1, s, l2. repeat split; try assumption.
    assert (Hnot : ~ In s l1) by (intros Hin'; apply Hl1 in Hin'; congruence).
    unfold split_strings. rewrite Heq. unfold split_at. subst l.
    destruct (min_length <=? len (slice_to _ _));
      destruct (min_length <=? len (slice_from _ _));
      rewrite <- ?app_assoc; simpl; rewrite remove_first_middle by exact Hnot;
      rewrite ?app_nil_r; reflexivity.
  - left.
    assert (Hno : forall s, In s l -> inside off s = false).
    { intros s Hs. destruct (inside off s) eqn:Hi; [|reflexivity].
      assert (existsb (inside off) l = true) by (apply existsb_exists; eauto).
      congruence. }
    split; [exact Hno|]. apply split_strings_loop_no_hit. exact Hno.
Qed.

(** Where an element of the result comes from: it was in the list, or it
    is one of the two parts of a held string that contains the address. *)
Lemma split_strings_elem (l : list StaticString) (off min_length : Z)
    (x : StaticString) :
  In x (split_strings l off min_length) ->
  In x l \/
  exists s, In s l /\ inside off s = true /\
    min_length <= len (ss_string x) /\ ss_encoding x = UTF8 /\
    (x = mkStaticString (slice_to (ss_string s) (off - ss_offset s))
           (ss_offset s) UTF8 \/
     x = mkStaticString (slice_from (ss_string s) (off - ss_offset s)) off UTF8).
Proof.
  destruct (split_strings_cases l off min_length)
    as [[_ ->] | (l1 & s & l2 & -> & _ & Hs & ->)]; [auto|].
  assert (Hin : In s (l1 ++ s :: l2)) by (apply in_app_iff; right; left; reflexivity).
  intros H. rewrite !in_app_iff in H. destruct H as [H | [H | [H | H]]].
  - left. apply in_app_iff. left. exact H.
  - left. apply in_app_iff. right. right. exact H.
  - right. exists s. split; [exact Hin|].
    split; [exact Hs|].
    destruct (Z.leb_spec min_length (len (slice_to (ss_string s) (off - ss_offset s))));
      [|destruct H].
    destruct H as [<- | []]. simpl. auto.
  - right. exists s. split; [exact Hin|].
    split; [exact Hs|].
    destruct (Z.leb_spec min_length (len (slice_from (ss_string s) (off - ss_offset s))));
      [|destruct H].
    destruct H as [<- | []]. simpl. auto.
Qed.

(** X1: an address that lies strictly inside no held string (at the first
    character of a string, at its end, or outside all of them) leaves the
    list as it is. *)
Theorem split_strings_no_hit (l : list StaticString) (off min_length : Z) :
  (forall s, In s l -> ~ (ss_offset s < off < ss_offset s + len (ss_string s))) ->
  split_strings l off min_length = l.
Proof.
  intros Hno. apply split_strings_loop_no_hit. intros s Hs.
  destruct (inside off s) eqn:Hi; [|reflexivity].
  apply inside_spec in Hi. exfalso. exact (Hno s Hs Hi).
Qed.

(** An address at the first character of the only string changes nothing,
    and neither does the address just past its end. *)
Lemma split_strings_no_hit_witness :
  split_strings [abcdefgh] 0x100 4 = [abcdefgh] /\
  split_strings [abcdefgh] 0x108 4 = [abcdefgh].
Proof.
  split.
  - apply (split_strings_no_hit [abcdefgh] 0x100 4).
    intros s [<- | []]. vm_compute. intros [H _]. discriminate.
  - apply (split_strings_no_hit [abcdefgh] 0x108 4).
    intros s [<- | []]. vm_compute. intros [_ H]. discriminate.
Defined.

(** X2: when every held string has at least [min_length] characters, so
    has every string after the call. *)
Theorem split_strings_keeps_min_length (l : list StaticString) (off min_length : Z) :
  (forall s, In s l -> min_length <= len (ss_string s)) ->
  forall x, In x (split_strings l off min_length) -> min_length <= len (ss_string x).
Proof.
  intros Hl x Hx. apply split_strings_elem in Hx as [Hx | (s & _ & _ & Hlen & _)].
  - apply Hl. exact Hx.
  - exact Hlen.
Qed.

Lemma split_strings_keeps_min_length_witness :
  4 <= len (ss_string (mkStaticString (lit "defgh") 0x103 UTF8)).
Proof.
  apply (split_strings_keeps_min_length [abcdefgh] 0x103 4).
  - intros s [<- | []]. vm_compute. discriminate.
  - vm_compute. left. reflexivity.
Defined.

Lemma stretch_of_refl (s : StaticString) : stretch_of s s.
Proof.
  exists [], []. simpl. rewrite app_nil_r. split; [reflexivity|].
  unfold len. simpl. lia.
Qed.

Lemma len_app {A} (a b : list A) : len (a ++ b) = len a + len b.
Proof. unfold len. rewrite length_app. lia. Qed.

Lemma stretch_of_trans (s t x : StaticString) :
  stretch_of s t -> stretch_of t x -> stretch_of s x.
Proof.
  intros (a & b & Hs & Ho) (a' & b' & Ht & Ho').
  exists (a ++ a'), (b' ++ b). split.
  - rewrite Hs, Ht, <- !app_assoc. reflexivity.
  - rewrite len_app. lia.
Qed.

(** X3: every string after the call is a stretch of a string held before:
    its text occurs in the text of that string, at the place its offset
    says.  The call invents no text and moves none. *)
Theorem split_strings_stretches (l : list StaticString) (off min_length : Z) :
  Forall (fun x => exists s, In s l /\ stretch_of s x)
    (split_strings l off min_length).
Proof.
  apply List.Forall_forall. intros x Hx.
  apply split_strings_elem in Hx as [Hx | (s & Hs & Hin & _ & _ & Hpart)].
  - exists x. split; [exact Hx | apply stretch_of_refl].
  - exists s. split; [exact Hs|]. apply inside_spec in Hin.
    destruct Hpart as [-> | ->].
    + exists [], (slice_from (ss_string s) (off - ss_offset s)). simpl.
      split; [symmetry; apply slice_to_from | unfold len; simpl; lia].
    + exists (slice_to (ss_string s) (off - ss_offset s)), []. simpl.
      rewrite app_nil_r. split; [symmetry; apply slice_to_from|].
      rewrite len_slice_to by lia. lia.
Qed.

(** X4: a call takes at most one string out and puts at most two in:
    either the list is left as it is, or exactly one string is removed, the
    others keep their places, and at most two strings are appended. *)
Theorem split_strings_one_out_two_in (l : list StaticString) (off min_length : Z) :
  split_strings l off min_length = l \/
  exists l1 s l2 added,
    l = l1 ++ s :: l2 /\
    split_strings l off min_length = l1 ++ l2 ++ added /\
    (length added <= 2)%nat.
Proof.
  destruct (split_strings_cases l off min_length)
    as [[_ ->] | (l1 & s & l2 & Hl & _ & _ & Heq)]; [left; reflexivity|].
  right. exists l1, s, l2. eexists. split; [exact Hl|]. split; [exact Heq|].
  rewrite length_app.
  destruct (min_length <=? _); destruct (min_length <=? _); simpl; lia.
Qed.

(** X5: when at most one held string contains the address, a second call
    with the same address changes nothing more: a cross-reference that is
    reported twice splits once. *)
Theorem split_strings_again (l : list StaticString) (off min_length : Z) :
  (length (List.filter (inside off) l) <= 1)%nat ->
  split_strings (split_strings l off min_length) off min_length =
    split_strings l off min_length.
Proof.
  intros Hone.
  destruct (split_strings_cases l off min_length)
    as [[Hno ->] | (l1 & s & l2 & -> & Hl1 & Hs & ->)].
  - apply split_strings_loop_no_hit. exact Hno.
  - apply split_strings_loop_no_hit.
    rewrite List.filter_app in Hone. simpl in Hone. rewrite Hs in Hone.
    rewrite length_app in Hone. simpl in Hone.
    assert (Hl2 : forall x, In x l2 -> inside off x = false).
    { intros x Hx. destruct (inside off x) eqn:Hi; [|reflexivity].
      assert (Hin : In x (List.filter (inside off) l2))
        by (apply filter_In; auto).
      destruct (List.filter (inside off) l2); [destruct Hin | simpl in Hone; lia]. }
    apply inside_spec in Hs.
    intros x. rewrite !in_app_iff. intros [H | [H | [H | H]]]; auto.
    + destruct (min_length <=? _); [|destruct H]. destruct H as [<- | []].
      unfold inside. simpl. rewrite len_slice_to by lia.
      apply andb_false_iff. right. apply Z.ltb_ge. lia.
    + destruct (min_length <=? _); [|destruct H]. destruct H as [<- | []].
      unfold inside. simpl. apply andb_false_iff. left. apply Z.ltb_ge. lia.
Qed.

Lemma split_strings_again_witness :
  split_strings (split_strings [abcdefgh] 0x104 4) 0x104 4 =
    split_strings [abcdefgh] 0x104 4.
Proof.
  apply (split_strings_again [abcdefgh] 0x104 4). vm_compute. lia.
Defined.

(** ** More on the blob engine *)

Lemma filter_and_transform_elem (strings : list b2s_string) (start_rdata : Z)
    (x : StaticString) :
  In x (filter_and_transform_utf8_strings strings start_rdata) ->
  ss_encoding x = UTF8 /\ one_line (ss_string x) /\
  exists r, In r strings /\ kind_of r = "UTF8"%string /\
    ss_string x = remove_char newline (text_of r) /\
    ss_offset x = fst (span_of r) + start_rdata.
Proof.
  unfold filter_and_transform_utf8_strings. rewrite in_flat_map.
  intros (r & Hr & Hx).
  destruct (String.eqb (kind_of r) "UTF8") eqn:Hk; simpl in Hx; [|destruct Hx].
  destruct Hx as [<- | []]. simpl. split; [reflexivity|]. split.
  - unfold one_line, remove_char. rewrite filter_In.
    intros [_ H]. rewrite N.eqb_refl in H. discriminate.
  - exists r. apply String.eqb_eq in Hk. auto.
Qed.

Lemma stretch_of_one_line (s x : StaticString) :
  stretch_of s x -> one_line (ss_string s) -> one_line (ss_string x).
Proof.
  intros (a & b & Hs & _) Hline Hin. apply Hline. rewrite Hs.
  apply in_app_iff. right. apply in_app_iff. left. exact Hin.
Qed.

Lemma split_strings_elem_stretch (l : list StaticString) (off min_length : Z)
    (x : StaticString) :
  In x (split_strings l off min_length) ->
  In x l \/
  exists s, In s l /\ stretch_of s x /\ ss_encoding x = UTF8 /\
    min_length <= len (ss_string x).
Proof.
  intros Hx.
  apply split_strings_elem in Hx as [Hx | (s & Hs & Hin & Hlen & Henc & Hpart)];
    [left; exact Hx|].
  right. exists s. split; [exact Hs|]. split; [|auto].
  apply inside_spec in Hin. destruct Hpart as [-> | ->].
  - exists [], (slice_from (ss_string s) (off - ss_offset s)). simpl.
    split; [symmetry; apply slice_to_from | unfold len; simpl; lia].
  - exists (slice_to (ss_string s) (off - ss_offset s)), []. simpl.
    rewrite app_nil_r. split; [symmetry; apply slice_to_from|].
    rewrite len_slice_to by lia. lia.
Qed.

(** What the loop over the cross-references keeps true of every string. *)
Lemma split_at_xrefs_stretches (base : list StaticString) (xrefs : list Z)
    (image_base virtual_address pointer_to_raw_data start_rdata end_rdata
     min_length : Z) :
  forall l,
    Forall (fun x => ss_encoding x = UTF8 /\ exists s, In s base /\ stretch_of s x) l ->
    Forall (fun x => ss_encoding x = UTF8 /\ exists s, In s base /\ stretch_of s x)
      (split_at_xrefs l xrefs image_base virtual_address pointer_to_raw_data
         start_rdata end_rdata min_length).
Proof.
  unfold split_at_xrefs.
  induction xrefs as [|addr xrefs IH]; intros l Hl; simpl; [exact Hl|].
  apply IH. destruct (negb _); [exact Hl|].
  rewrite List.Forall_forall in *. intros x Hx.
  apply split_strings_elem_stretch in Hx as [Hx | (s & Hs & Hstretch & Henc & _)];
    [apply Hl; exact Hx|].
  split; [exact Henc|].
  destruct (Hl s Hs) as [_ (s0 & Hs0 & Hstretch0)].
  exists s0. split; [exact Hs0|]. eapply stretch_of_trans; eassumption.
Qed.

Section BlobEngineMore.

Variable PE : Type.
Variable ImageBase : PE -> Z.
Variable Machine : PE -> Z.
Variable get_rdata_section : PE -> option SectionHeader.
Variable extract_all_strings : bytes -> Z -> list b2s_string.
Variable extract_string : bytes -> b2s_string.
Variable struct_string_addrs : PE -> list Z.
Variable find_lea_xrefs : PE -> list Z.
Variable find_push_xrefs : PE -> list Z.
Variable find_mov_xrefs : PE -> list Z.

(** X6: every string the blob engine returns is UTF8-encoded, holds no
    newline, and is a stretch of one of the UTF8 results of the repaired
    scan (newlines taken out, offset moved by the start of the section):
    the cross-references only cut the scanned strings, at the places the
    offsets say. *)
Theorem blob_strings_are_stretches (pe : PE) (min_length : Z)
    (out : list StaticString) :
  get_string_blob_strings PE ImageBase Machine get_rdata_section
    extract_all_strings extract_string struct_string_addrs find_lea_xrefs
    find_push_xrefs find_mov_xrefs pe min_length = Ok out ->
  Forall (fun x =>
    ss_encoding x = UTF8 /\ one_line (ss_string x) /\
    exists sec fixed s,
      get_rdata_section pe = Some sec /\
      fix_b2s_wide_strings extract_string
        (extract_all_strings (get_data sec) min_length) min_length (get_data sec)
        = Ok fixed /\
      In s (filter_and_transform_utf8_strings fixed (PointerToRawData sec)) /\
      stretch_of s x) out.
Proof.
  unfold get_string_blob_strings.
  destruct (get_rdata_section pe) as [sec|]; [|intros [= <-]; constructor].
  destruct (fix_b2s_wide_strings _ _ _ _) as [fixed|] eqn:Hfix; [|discriminate].
  assert (Hbase : Forall (fun x => ss_encoding x = UTF8 /\
            exists s, In s (filter_and_transform_utf8_strings fixed (PointerToRawData sec))
                      /\ stretch_of s x)
            (filter_and_transform_utf8_strings fixed (PointerToRawData sec))).
  { apply List.Forall_forall. intros x Hx. split.
    - apply filter_and_transform_elem in Hx. tauto.
    - exists x. split; [exact Hx | apply stretch_of_refl]. }
  assert (Hfinish : forall xrefs,
    Forall (fun x => ss_encoding x = UTF8 /\ one_line (ss_string x) /\
      exists sec0 fixed0 s, Some sec = Some sec0 /\
        fix_b2s_wide_strings extract_string
          (extract_all_strings (get_data sec0) min_length) min_length (get_data sec0)
          = Ok fixed0 /\
        In s (filter_and_transform_utf8_strings fixed0 (PointerToRawData sec0)) /\
        stretch_of s x)
      (split_at_xrefs (filter_and_transform_utf8_strings fixed (PointerToRawData sec))
         xrefs (ImageBase pe) (VirtualAddress sec) (PointerToRawData sec)
         (PointerToRawData sec) (PointerToRawData sec + SizeOfRawData sec) min_length)).
  { intros xrefs. eapply Forall_impl; [apply split_at_xrefs_stretches; exact Hbase|].
    simpl. intros x (Henc & s & Hs & Hstretch). split; [exact Henc|]. split.
    - eapply stretch_of_one_line; [exact Hstretch|].
      apply filter_and_transform_elem in Hs. tauto.
    - exists sec, fixed, s. auto. }
  destruct (Machine pe =? IMAGE_FILE_MACHINE_I386).
  - intros [= <-]. apply Hfinish.
  - destruct (Machine pe =? IMAGE_FILE_MACHINE_AMD64).
    + intros [= <-]. apply Hfinish.
    + intros [= <-]. constructor.
Qed.

End BlobEngineMore.

(** "hello world" with a cross-reference to its sixth character: two
    strings, cut at that character. *)
Example hello_world_is_cut :
  hello_world_strings 4 =
    Ok [mkStaticString (lit "hello") 0x600 UTF8;
        mkStaticString (lit " world") 0x605 UTF8].
Proof. vm_compute. reflexivity. Qed.

Lemma blob_strings_are_stretches_witness :
  Forall (fun x =>
    ss_encoding x = UTF8 /\ one_line (ss_string x) /\
    exists sec fixed s,
      pe_rdata x86_image = Some sec /\
      fix_b2s_wide_strings scan_one
        (scan_all_ascii (get_data sec) 4) 4 (get_data sec) = Ok fixed /\
      In s (filter_and_transform_utf8_strings fixed (PointerToRawData sec)) /\
      stretch_of s x)
    [mkStaticString (lit "hello") 0x600 UTF8;
     mkStaticString (lit " world") 0x605 UTF8].
Proof.
  apply (blob_strings_are_stretches SamplePE pe_image_base pe_machine pe_rdata
           scan_all_ascii scan_one hello_xrefs no_xrefs no_xrefs no_xrefs
           x86_image 4).
  vm_compute. reflexivity.
Defined.

(** X7: a cross-reference whose address falls outside the read-only
    section takes no part in the splitting: the loop does what it does on
    the cross-references that fall inside, in their order. *)
Theorem split_at_xrefs_inside_only (xrefs : list Z)
    (image_base virtual_address pointer_to_raw_data start_rdata end_rdata
     min_length : Z) (l : list StaticString) :
  split_at_xrefs l xrefs image_base virtual_address pointer_to_raw_data
    start_rdata end_rdata min_length =
  split_at_xrefs l
    (List.filter (xref_in_section image_base virtual_address pointer_to_raw_data
                    start_rdata end_rdata) xrefs)
    image_base virtual_address pointer_to_raw_data start_rdata end_rdata min_length.
Proof.
  unfold split_at_xrefs, xref_in_section. revert l.
  induction xrefs as [|addr xrefs IH]; intros l; simpl; [reflexivity|].
  destruct ((start_rdata <=? _) && (_ <? end_rdata)) eqn:Hin; simpl;
    rewrite ?Hin; simpl; apply IH.
Qed.

(** ** [get_static_strings_from_rdata] *)

Lemma sublist_bool_filter {A} (f : A -> bool) (l : list A) :
  sublist (List.filter f l) l.
Proof.
  induction l as [|x l IH]; simpl; [constructor|].
  destruct (f x); [apply sublist_skip | apply sublist_cons]; exact IH.
Qed.

Section RdataFacts.

Variable PE : Type.
Variable get_rdata_section : PE -> option SectionHeader.

(** X8: [get_static_strings_from_rdata] gives nothing when the image has
    no read-only section.  Otherwise it keeps, in their order and as often
    as they occur, the strings that start inside the section, and no other:
    the result is a subsequence of the input in which a string inside the
    section occurs as often as in the input and a string outside it not at
    all.  Applied to its own result it changes nothing. *)
Theorem rdata_strings_in_section (pe : PE) (static_strings : list StaticString) :
  match get_rdata_section pe with
  | None =>
      get_static_strings_from_rdata PE get_rdata_section pe static_strings = []
  | Some sec =>
      sublist (get_static_strings_from_rdata PE get_rdata_section pe static_strings)
        static_strings /\
      forall x,
        count_occ StaticString_eq_dec
          (get_static_strings_from_rdata PE get_rdata_section pe static_strings) x =
        if (PointerToRawData sec <=? ss_offset x) &&
           (ss_offset x <? PointerToRawData sec + SizeOfRawData sec)
        then count_occ StaticString_eq_dec static_strings x
        else 0%nat
  end /\
  get_static_strings_from_rdata PE get_rdata_section pe
    (get_static_strings_from_rdata PE get_rdata_section pe static_strings) =
  get_static_strings_from_rdata PE get_rdata_section pe static_strings.
Proof.
  unfold get_static_strings_from_rdata.
  destruct (get_rdata_section pe) as [sec|]; [|split; reflexivity].
  split; [split|].
  - apply sublist_bool_filter.
  - intros x. induction static_strings as [|y l IH]; simpl.
    + destruct (_ && _); reflexivity.
    + destruct ((PointerToRawData sec <=? ss_offset y) &&
                (ss_offset y <? PointerToRawData sec + SizeOfRawData sec)) eqn:Hy;
        simpl; destruct (StaticString_eq_dec y x) as [->|Hne].
      * rewrite IH, Hy. reflexivity.
      * exact IH.
      * rewrite IH, Hy. reflexivity.
      * exact IH.
  - apply filter_twice.
Qed.

End RdataFacts.

(** ** More on the wide-string repair pass *)

Section RepairMore.

Variable extract_string : bytes -> b2s_string.

Lemma fix_loop_without_wide (min_length : Z) (buffer : bytes)
    (strings : list b2s_string) :
  (forall r, In r strings -> is_wide r = false) ->
  forall acc,
    fix_loop extract_string strings min_length buffer acc None = Ok (acc ++ strings).
Proof.
  induction strings as [|string strings IH]; intros Hno acc; simpl.
  - rewrite app_nil_r. reflexivity.
  - pose proof (Hno string (or_introl eq_refl)) as Hk. unfold is_wide in Hk.
    rewrite Hk, IH by (intros r Hr; apply Hno; right; exact Hr).
    rewrite <- app_assoc. reflexivity.
Qed.

Lemma fix_loop_raises (min_length : Z) (buffer : bytes)
    (strings : list b2s_string) :
  forall acc last e,
    fix_loop extract_string strings min_length buffer acc last = Raise e <->
    exists r, In r strings /\ is_wide r = true /\
              encode_utf16le_ignore (text_of r) = [].
Proof.
  induction strings as [|string strings IH]; intros acc last e; simpl.
  - split; [discriminate | intros (r & [] & _)].
  - assert (Hlater : (exists r, In r strings /\ is_wide r = true /\
                         encode_utf16le_ignore (text_of r) = []) ->
                     exists r, (string = r \/ In r strings) /\ is_wide r = true /\
                         encode_utf16le_ignore (text_of r) = []).
    { intros (r & Hr & H). exists r. split; [right; exact Hr | exact H]. }
    destruct (String.eqb (kind_of string) "WIDE_STRING") eqn:Hkind.
    + destruct (encode_utf16le_ignore (text_of string)) as [|sd0 sd] eqn:Hsd.
      * split; [|destruct e; reflexivity].
        intros _. exists string. unfold is_wide. auto.
      * assert (Hhere : forall r, string = r -> is_wide r = true ->
                  encode_utf16le_ignore (text_of r) = [] -> False).
        { intros r <- _ H. rewrite Hsd in H. discriminate. }
        destruct (N.eqb sd0 0); rewrite IH; (split; [exact Hlater|]);
          intros (r & [Hr | Hr] & Hw & He); eauto; destruct (Hhere r Hr Hw He).
    + rewrite IH. split; [exact Hlater|].
      intros (r & [<- | Hr] & Hw & He); eauto.
      unfold is_wide in Hw. congruence.
Qed.

(** X9: a scan without wide strings passes through the repair unchanged. *)
Theorem repair_without_wide (strings : list b2s_string) (min_length : Z)
    (buffer : bytes) :
  (forall r, In r strings -> is_wide r = false) ->
  fix_b2s_wide_strings extract_string strings min_length buffer = Ok strings.
Proof.
  intros Hno. unfold fix_b2s_wide_strings.
  rewrite fix_loop_without_wide by exact Hno. reflexivity.
Qed.

(** X10: the repair raises [IndexError], from [sd[0]], exactly when the
    scan holds a wide string whose text encodes to no byte at all (an empty
    text, or one of lone surrogates only); otherwise it returns. *)
Theorem repair_raises_iff (strings : list b2s_string) (min_length : Z)
    (buffer : bytes) :
  fix_b2s_wide_strings extract_string strings min_length buffer = Raise IndexError <->
  exists r, In r strings /\ is_wide r = true /\
            encode_utf16le_ignore (text_of r) = [].
Proof. apply fix_loop_raises. Qed.

(** X11: when the one-string scanner reports no wide string, the repair
    applied to its own output changes nothing. *)
Theorem repair_twice (strings : list b2s_string) (min_length : Z)
    (buffer : bytes) (out : list b2s_string) :
  (forall b, is_wide (extract_string b) = false) ->
  fix_b2s_wide_strings extract_string strings min_length buffer = Ok out ->
  fix_b2s_wide_strings extract_string out min_length buffer = Ok out.
Proof.
  intros Hscan Hrun. unfold fix_b2s_wide_strings in *.
  apply (fix_loop_output extract_string strings) in Hrun
    as (out' & -> & _ & Hfrom); [| auto | discriminate].
  simpl. apply fix_loop_without_wide.
  rewrite List.Forall_forall in Hfrom. intros r Hr.
  destruct (Hfrom r Hr) as [[_ Hw] | (w & _ & _ & _ & -> & _)]; [exact Hw|].
  unfold is_wide, rescan, kind_of in *. simpl. apply Hscan.
Qed.

End RepairMore.

Lemma repair_without_wide_witness :
  fix_b2s_wide_strings scan_one [oo_utf8; foo_fixup] 2 shifted_buffer
    = Ok [oo_utf8; foo_fixup].
Proof.
  apply (repair_without_wide scan_one [oo_utf8; foo_fixup] 2 shifted_buffer).
  intros r [<- | [<- | []]]; reflexivity.
Defined.

Lemma repair_twice_witness :
  fix_b2s_wide_strings scan_one_ascii [foo_fixup] 2 shifted_buffer = Ok [foo_fixup].
Proof.
  apply (repair_twice scan_one_ascii
           [(shifted_text, "WIDE_STRING"%string, (0, 6), true); oo_utf8]
           2 shifted_buffer [foo_fixup]).
  - intros b. reflexivity.
  - vm_compute. reflexivity.
Defined.

(** ** More on [strip_string] *)

(** Substitution by the empty string only takes characters away. *)
Lemma sub_loop_sublist (r : re) (rest : str) :
  forall pos skip, sublist (sub_loop r pos skip rest) rest.
Proof.
  induction rest as [|c t IH]; intros pos skip; simpl; [constructor|].
  destruct skip as [|n]; [|apply sublist_cons, IH].
  destruct (run r _ _); [apply sublist_cons | apply sublist_skip]; apply IH.
Qed.

Lemma re_sub_sublist (r : re) (s : str) : sublist (re_sub r s) s.
Proof. apply sub_loop_sublist. Qed.

Lemma fold_sub_sublist (regs : list re) :
  forall s, sublist (fold_left (fun s reg => re_sub reg s) regs s) s.
Proof.
  induction regs as [|reg regs IH]; intros s; simpl; [reflexivity|].
  etransitivity; [apply IH | apply re_sub_sublist].
Qed.

(** X12: the filter only deletes: what [strip_string] returns is the input
    with some characters left out, the others in their order, and so never
    longer than the input. *)
Theorem strip_string_only_deletes (s : str) :
  sublist (strip_string s) s /\ len (strip_string s) <= len s.
Proof.
  assert (H : sublist (strip_string s) s).
  { unfold strip_string. destruct (strict_gate (strip_level s)).
    - etransitivity; [apply fold_sub_sublist | apply fold_sub_sublist].
    - apply fold_sub_sublist. }
  split; [exact H|]. apply sublist_length in H. unfold len. lia.
Qed.

(** X13: a filtered text of at most 6 characters is made of letters,
    digits and dots only, unless it is a bracketed name or starts with
    [%s] or [%d]. *)
Theorem short_results_are_plain (s : str) :
  len (strip_string s) <= 6 ->
  Forall (fun c => plain c = true) (strip_string s) \/
  matches_bracketed (strip_string s) = true \/
  starts_with_format (strip_string s) = true.
Proof.
  unfold strip_string.
  destruct (strict_gate (strip_level s)) eqn:Hgate; intros Hlen.
  - left. unfold strict_level. simpl. rewrite re_sub_special_chars.
    apply List.Forall_forall. intros c Hc. apply filter_In in Hc. tauto.
  - right. rewrite strict_gate_anchored_eq in Hgate.
    unfold strict_gate_anchored in Hgate.
    destruct (Z.leb_spec (len (strip_level s)) 6); [|lia].
    destruct (matches_bracketed (strip_level s)); [left; reflexivity|].
    destruct (starts_with_format (strip_level s)); [right; reflexivity|].
    discriminate.
Qed.

Lemma short_results_are_plain_witness :
  Forall (fun c => plain c = true) (strip_string (lit "a-b%c")) \/
  matches_bracketed (strip_string (lit "a-b%c")) = true \/
  starts_with_format (strip_string (lit "a-b%c")) = true.
Proof.
  apply (short_results_are_plain (lit "a-b%c")). vm_compute. discriminate.
Defined.

(** ** More on [extract_strings] *)

Lemma sublist_omap {A B} (f g : A -> option B) (l : list A) :
  (forall x, f x = None \/ f x = g x) -> sublist (omap f l) (omap g l).
Proof.
  intros H. induction l as [|x l IH]; simpl; [constructor|].
  destruct (H x) as [-> | ->].
  - destruct (g x); [apply sublist_cons|]; exact IH.
  - destruct (g x); [apply sublist_skip|]; exact IH.
Qed.

Section ExtractStringsMore.

Variable scan : bytes -> list StaticString.
Variable MAX_STRING_LENGTH : Z.

(** X14: every string that [extract_strings] emits has at least
    [min_length] characters and is not in the exclusion set; a buffer
    shorter than [min_length] gives nothing, whatever the scanner would
    find in it. *)
Theorem extract_strings_emits_long_fresh (buffer : bytes) (min_length : Z)
    (exclude : option (gset str)) :
  Forall (fun x =>
    min_length <= len (ss_string x) /\
    forall e, exclude = Some e -> ss_string x ∉ e)
    (extract_strings scan MAX_STRING_LENGTH buffer min_length exclude) /\
  (len buffer < min_length ->
   extract_strings scan MAX_STRING_LENGTH buffer min_length exclude = []).
Proof.
  split.
  - apply List.Forall_forall. intros x Hx.
    apply extract_strings_elem in Hx as (c & _ & Hb).
    apply extract_strings_body_some in Hb as (-> & _ & _ & Hlen & Hex).
    simpl. split; [exact Hlen|].
    intros e ->. apply excluded_false. exact Hex.
  - intros Hshort. unfold extract_strings, candidates.
    destruct (Z.ltb_spec (len buffer) min_length); [reflexivity | lia].
Qed.

Lemma excluded_mono (e e' : gset str) (x : str) :
  e ⊆ e' -> excluded (Some e) x = true -> excluded (Some e') x = true.
Proof.
  unfold excluded. intros Hsub H.
  apply andb_true_iff in H as [_ Hin]. apply bool_decide_eq_true in Hin.
  apply andb_true_iff. split.
  - apply negb_true_iff, bool_decide_eq_false. set_solver.
  - apply bool_decide_eq_true. set_solver.
Qed.

(** X15: a larger exclusion set never adds output: what is emitted with
    the larger set is what is emitted with the smaller one, some strings
    left out.  Passing the empty set is the same as passing no set. *)
Theorem extract_strings_exclude_mono (buffer : bytes) (min_length : Z)
    (e e' : gset str) :
  e ⊆ e' ->
  sublist (extract_strings scan MAX_STRING_LENGTH buffer min_length (Some e'))
          (extract_strings scan MAX_STRING_LENGTH buffer min_length (Some e)) /\
  extract_strings scan MAX_STRING_LENGTH buffer min_length (Some ∅) =
  extract_strings scan MAX_STRING_LENGTH buffer min_length None.
Proof.
  intros Hsub. split.
  - unfold extract_strings. apply sublist_omap. intros c.
    unfold extract_strings_body.
    destruct (MAX_STRING_LENGTH <? len (ss_string c)); [left; reflexivity|].
    case_bool_decide; [left; reflexivity|].
    destruct (len (strip_string (ss_string c)) <? min_length); [left; reflexivity|].
    destruct (excluded (Some e) (strip_string (ss_string c))) eqn:Hex.
    + rewrite (excluded_mono e e' _ Hsub Hex). left. reflexivity.
    + destruct (excluded (Some e') _); [left | right]; reflexivity.
  - reflexivity.
Qed.

End ExtractStringsMore.

Lemma extract_strings_exclude_mono_witness :
  sublist
    (extract_strings scan_ascii max_string_length secret_pass_stack 4
       (Some ({[ lit "SECRET" ]} ∪ {[ lit "PASS" ]})))
    (extract_strings scan_ascii max_string_length secret_pass_stack 4
       (Some {[ lit "SECRET" ]})) /\
  extract_strings scan_ascii max_string_length secret_pass_stack 4 (Some ∅) =
  extract_strings scan_ascii max_string_length secret_pass_stack 4 None.
Proof.
  apply (extract_strings_exclude_mono scan_ascii max_string_length
           secret_pass_stack 4 {[ lit "SECRET" ]}
           ({[ lit "SECRET" ]} ∪ {[ lit "PASS" ]})).
  apply union_subseteq_l.
Defined.

(** ** More on the tightstring engine *)

Section TightstringMore.

Variable scan : bytes -> list StaticString.
Variable MAX_STRING_LENGTH : Z.
Variable contexts_of : Z -> list TightLoop -> list CallContext * gset str.
Variable pointer_size : Z.

Lemma of_candidates_shape (fva : Z) (ctx : CallContext) (min_length : Z)
    (cands : list StaticString) :
  forall exclude,
    Forall (fun ts =>
      min_length <= len (ts_string ts) /\
      ts_frame_offset ts =
        (ts_original_stack_pointer ts - ts_stack_pointer ts) - ts_offset ts
        - pointer_size)
      (fst (tightstrings_of_candidates MAX_STRING_LENGTH pointer_size fva ctx
              cands min_length exclude)).
Proof.
  induction cands as [|c cands IH]; intros exclude; simpl; [constructor|].
  destruct (extract_strings_body _ _ _ c) as [s|] eqn:Hbody; [|apply IH].
  specialize (IH (exclude ∪ {[ss_string s]})).
  destruct (tightstrings_of_candidates _ _ fva ctx cands min_length _)
    as [out after]. simpl in *.
  constructor; [|exact IH]. simpl.
  apply extract_strings_body_some in Hbody as (-> & _ & _ & Hlen & _).
  simpl. split; [exact Hlen | reflexivity].
Qed.

Lemma of_contexts_shape (fva : Z) (min_length : Z) (ctxs : list CallContext) :
  forall exclude,
    Forall (fun ts =>
      min_length <= len (ts_string ts) /\
      ts_frame_offset ts =
        (ts_original_stack_pointer ts - ts_stack_pointer ts) - ts_offset ts
        - pointer_size)
      (fst (tightstrings_of_contexts scan MAX_STRING_LENGTH pointer_size fva
              ctxs min_length exclude)).
Proof.
  induction ctxs as [|ctx ctxs IH]; intros exclude; simpl; [constructor|].
  pose proof (of_candidates_shape fva ctx min_length
    (candidates scan (stack_memory ctx) min_length) exclude) as H1.
  destruct (tightstrings_of_candidates _ _ fva ctx _ min_length exclude)
    as [out1 e1].
  specialize (IH e1).
  destruct (tightstrings_of_contexts _ _ _ fva ctxs min_length e1) as [out2 e2].
  simpl in *. apply Forall_app. split; assumption.
Qed.

(** X16: every TightString that is yielded has at least [min_length]
    characters, and its frame offset is the stack size of its context,
    less the offset of the string in the stack buffer, less the pointer
    size. *)
Theorem tightstrings_shape (tightloop_functions : list (Z * list TightLoop))
    (min_length : Z) :
  Forall (fun ts =>
    min_length <= len (ts_string ts) /\
    ts_frame_offset ts =
      (ts_original_stack_pointer ts - ts_stack_pointer ts) - ts_offset ts
      - pointer_size)
    (extract_tightstrings scan MAX_STRING_LENGTH contexts_of pointer_size
       tightloop_functions min_length).
Proof.
  unfold extract_tightstrings.
  induction tightloop_functions as [|[fva tloops] items IH]; simpl; [constructor|].
  apply Forall_app. split; [|exact IH].
  unfold tightstrings_of_function. simpl.
  destruct (contexts_of fva tloops) as [ctxs pre]. apply of_contexts_shape.
Qed.

(** X17: the extraction changes the set it was given as [pre_ctx_strings]:
    when the contexts of a function have been worked through, the set holds
    what it held before and the text of every TightString yielded. *)
Theorem exclusion_set_afterwards (fva : Z) (ctxs : list CallContext)
    (min_length : Z) (pre_ctx_strings : gset str) :
  snd (tightstrings_of_contexts scan MAX_STRING_LENGTH pointer_size fva ctxs
         min_length pre_ctx_strings) =
  pre_ctx_strings ∪
  list_to_set (map ts_string
    (fst (tightstrings_of_contexts scan MAX_STRING_LENGTH pointer_size fva ctxs
            min_length pre_ctx_strings))).
Proof.
  destruct (tightstrings_of_contexts _ _ _ fva ctxs min_length pre_ctx_strings)
    as [out after] eqn:Hrun.
  apply of_contexts_fresh in Hrun as (Hafter & _); [|exact contexts_of].
  exact Hafter.
Qed.

End TightstringMore.

(** ** The tightstring monitor *)

Lemma remove_first_absent {A} `{EqDecision A} (x : A) (l : list A) :
  NoDup l -> x ∉ remove_first x l.
Proof.
  induction 1 as [|y l Hy Hl IH]; simpl; [apply not_elem_of_nil|].
  destruct (decide (y = x)) as [->|Hne]; [exact Hy|].
  rewrite not_elem_of_cons. split; [congruence | exact IH].
Qed.

Section MonitorFacts.

Variable extract_ascii_strings : bytes -> list StaticString.
Variable extract_unicode_strings : bytes -> list StaticString.

Local Abbreviation prehook' :=
  (TightMonitor.prehook extract_ascii_strings extract_unicode_strings).



End MonitorFacts.



(** ** [remove_stack_memory] *)

(** The loop starting below the part [post] that holds no stack map. *)
Lemma remove_stack_loop_spec (pre : list StackMemory.mmap) :
  forall post,
    (forall m, In m post -> StackMemory.info_name m <> StackMemory.STACK_MEM_NAME) ->
    match StackMemory.remove_stack_loop (pre ++ post) (length pre) with
    | Some r =>
        exists a m b,
          pre ++ post = a ++ m :: b /\
          StackMemory.info_name m = StackMemory.STACK_MEM_NAME /\
          (forall m', In m' b ->
             StackMemory.info_name m' <> StackMemory.STACK_MEM_NAME) /\
          r = a ++ b
    | None =>
        forall m, In m pre -> StackMemory.info_name m <> StackMemory.STACK_MEM_NAME
    end.
Proof.
  induction pre as [|m pre IH] using rev_ind; intros post Hpost.
  - simpl. intros m [].
  - rewrite length_app, Nat.add_1_r. cbn [StackMemory.remove_stack_loop].
    rewrite <- app_assoc. cbn [app].
    rewrite (list_lookup_middle pre post m (length pre) eq_refl).
    destruct (String.eqb (StackMemory.info_name m) StackMemory.STACK_MEM_NAME) eqn:Hname.
    + exists pre, m, post. split; [reflexivity|].
      split; [apply String.eqb_eq; exact Hname|]. split; [exact Hpost|].
      rewrite delete_middle. reflexivity.
    + apply String.eqb_neq in Hname.
      specialize (IH (m :: post)).
      destruct (StackMemory.remove_stack_loop (pre ++ m :: post) (length pre)).
      * apply IH. intros m' [<- | Hm']; [exact Hname | apply Hpost; exact Hm'].
      * intros m' Hm'. apply in_app_iff in Hm' as [Hm' | [<- | []]];
          [|exact Hname].
        apply IH; [|exact Hm'].
        intros m0 [<- | Hm0]; [exact Hname | apply Hpost; exact Hm0].
Qed.

(** X20: [remove_stack_memory] raises [ValueError] exactly when no entry
    of the memory snapshot is named [[stack]]. *)
Theorem remove_stack_memory_raises_iff (emu : StackMemory.Emulator) :
  StackMemory.remove_stack_memory emu = StackMemory.ValueError <->
  forall m, In m (StackMemory.memory_snap emu) ->
    StackMemory.info_name m <> StackMemory.STACK_MEM_NAME.
Proof.
  unfold StackMemory.remove_stack_memory.
  pose proof (remove_stack_loop_spec (StackMemory.memory_snap emu) []) as H.
  rewrite app_nil_r in H. specialize (H (fun m Hm => match Hm with end)).
  destruct (StackMemory.remove_stack_loop _ _) as [r|].
  - split; [discriminate|]. intros Hno.
    destruct H as (a & m & b & Hsnap & Hname & _).
    exfalso. apply (Hno m); [|exact Hname].
    rewrite Hsnap. apply in_app_iff. right. left. reflexivity.
  - split; [intros _; exact H | reflexivity].
Qed.

(** X21: when it returns, [remove_stack_memory] has taken exactly one entry
    out of the memory snapshot, the last one named [[stack]]: the entries
    before and after it stay, in their order, a stack map further up the
    list included; and the base of the stack map is unset. *)
Theorem remove_stack_memory_removes_last (emu emu' : StackMemory.Emulator) :
  StackMemory.remove_stack_memory emu = StackMemory.Returned emu' ->
  exists a m b,
    StackMemory.memory_snap emu = a ++ m :: b /\
    StackMemory.info_name m = StackMemory.STACK_MEM_NAME /\
    (forall m', In m' b -> StackMemory.info_name m' <> StackMemory.STACK_MEM_NAME) /\
    StackMemory.memory_snap emu' = a ++ b /\
    StackMemory.stack_map_base emu' = None.
Proof.
  unfold StackMemory.remove_stack_memory.
  pose proof (remove_stack_loop_spec (StackMemory.memory_snap emu) []) as H.
  rewrite app_nil_r in H. specialize (H (fun m Hm => match Hm with end)).
  destruct (StackMemory.remove_stack_loop _ _) as [r|]; [|discriminate].
  intros [= <-]. destruct H as (a & m & b & Hsnap & Hname & Hb & ->).
  exists a, m, b. simpl. auto.
Qed.

(** Of two stack maps the later one goes. *)
Lemma remove_stack_memory_removes_last_witness :
  exists a m b,
    StackMemory.memory_snap two_stacks = a ++ m :: b /\
    StackMemory.info_name m = StackMemory.STACK_MEM_NAME /\
    (forall m', In m' b -> StackMemory.info_name m' <> StackMemory.STACK_MEM_NAME) /\
    [image_map 0x400000; stack_map 0xbfb00000; image_map 0x500000;
     image_map 0x600000] = a ++ b /\
    @None Z = None.
Proof.
  apply (remove_stack_memory_removes_last two_stacks
           (StackMemory.mkEmulator
              [image_map 0x400000; stack_map 0xbfb00000; image_map 0x500000;
               image_map 0x600000] None)).
  vm_compute. reflexivity.
Defined.

(** ** When the filter is idempotent *)

(** A match consumes at least [min_len] characters: the continuation is
    only asked about states that far on. *)
Lemma rep_loop_min_len (body : mstate -> cont -> option mstate) (n : nat)
    (greedy : bool) (lo : nat) (hi : option nat) (k1 k2 : cont) :
  (forall st c1 c2, (forall m, (m_pos st + n <= m_pos m)%nat -> c1 m = c2 m) ->
     body st c1 = body st c2) ->
  forall fuel i st,
    (forall m, (m_pos st + (lo - i) * n <= m_pos m)%nat -> k1 m = k2 m) ->
    rep_loop body greedy lo hi fuel i st k1 = rep_loop body greedy lo hi fuel i st k2.
Proof.
  intros Hbody. induction fuel as [|fuel IH]; intros i st Hk; [reflexivity|].
  cbn [rep_loop].
  rewrite (Hbody st _
    (fun st' => if (i <? lo)%nat || (m_pos st <? m_pos st')%nat
                then rep_loop body greedy lo hi fuel (S i) st' k2 else None)).
  - destruct (Nat.ltb_spec i lo); [reflexivity|].
    rewrite (Hk st); [reflexivity|].
    replace (lo - i)%nat with 0%nat by lia. lia.
  - intros st' Hst'.
    destruct ((i <? lo)%nat || (m_pos st <? m_pos st')%nat); [|reflexivity].
    apply IH. intros m Hm. apply Hk.
    destruct (Nat.lt_ge_cases i lo).
    + replace (lo - i)%nat with (S (lo - S i)) by lia.
      rewrite Nat.mul_succ_l. lia.
    + replace (lo - i)%nat with 0%nat by lia.
      replace (lo - S i)%nat with 0%nat in Hm by lia. lia.
Qed.

Lemma run_min_len (r : re) :
  forall st k1 k2,
    (forall m, (m_pos st + min_len r <= m_pos m)%nat -> k1 m = k2 m) ->
    run r st k1 = run r st k2.
Proof.
  assert (Hstep : forall ok st k1 k2,
            (forall m, (m_pos st + 1 <= m_pos m)%nat -> k1 m = k2 m) ->
            step1 ok st k1 = step1 ok st k2).
  { intros ok st k1 k2 Hk. unfold step1.
    destruct (m_rest st) as [|x t]; [reflexivity|].
    destruct (ok x); [|reflexivity]. apply Hk. simpl. lia. }
  induction r as [|c| |negated ranges| | |a IHa b IHb|a IHa b IHb
                 |greedy lo hi a IHa|a IHa|];
    intros st k1 k2 Hk; cbn [run min_len] in *; try (apply Hstep; exact Hk).
  - apply Hk. lia.
  - rewrite (Hk st) by lia. reflexivity.
  - rewrite (Hk st) by lia. reflexivity.
  - apply IHa. intros st' Hst'. apply IHb. intros m Hm. apply Hk. lia.
  - rewrite (IHa st k1 k2), (IHb st k1 k2); [reflexivity| |];
      intros m Hm; apply Hk; lia.
  - apply (rep_loop_min_len (run a) (min_len a)); [exact IHa|].
    intros m Hm. apply Hk. rewrite Nat.sub_0_r in Hm. exact Hm.
  - apply IHa. intros st' Hst'. apply Hk. simpl. exact Hst'.
  - destruct (m_grp st) as [w|]; [|reflexivity].
    destruct (starts_with w (m_rest st)); [|reflexivity].
    apply Hk. simpl. lia.
Qed.

(** For a pattern that cannot match the empty string, asking for a match
    that advances asks nothing more. *)
Lemma advancing_same (r : re) (pos : nat) (rest : str) :
  (1 <= min_len r)%nat ->
  run r (mkState pos rest None) (advancing pos) = match_at r pos rest.
Proof.
  intros Hmin. unfold match_at. apply run_min_len.
  intros m Hm. unfold advancing. simpl in Hm.
  destruct (Nat.ltb_spec pos (m_pos m)); [reflexivity | lia].
Qed.

Lemma sub_loop_length (r : re) (rest : str) (pos skip : nat) :
  (length (sub_loop r pos skip rest) <= length rest)%nat.
Proof. apply sublist_length, sub_loop_sublist. Qed.

(** With a continuation that accepts nothing, nothing matches. *)
Lemma rep_loop_none (body : mstate -> cont -> option mstate)
    (greedy : bool) (lo : nat) (hi : option nat) :
  (forall st c, (forall st', c st' = None) -> body st c = None) ->
  forall fuel i st,
    rep_loop body greedy lo hi fuel i st (fun _ => None) = None.
Proof.
  intros Hbody. induction fuel as [|fuel IH]; intros i st; [reflexivity|].
  cbn [rep_loop].
  rewrite Hbody.
  - destruct (below i hi), (i <? lo)%nat, greedy; reflexivity.
  - intros st'. destruct (_ || _); [apply IH | reflexivity].
Qed.

Lemma run_none (r : re) :
  forall st c, (forall st', c st' = None) -> run r st c = None.
Proof.
  induction r as [|c| |negated ranges| | |a IHa b IHb|a IHa b IHb
                 |greedy lo hi a IHa|a IHa|];
    intros st k Hk; cbn [run]; unfold step1.
  - apply Hk.
  - destruct (m_rest st); [reflexivity|]. destruct (N.eqb c _); auto.
  - destruct (m_rest st); [reflexivity|]. destruct (negb _); auto.
  - destruct (m_rest st); [reflexivity|]. destruct (xorb _ _); auto.
  - destruct (Nat.eqb _ _); auto.
  - destruct (at_eol st); auto.
  - apply IHa. intros st'. apply IHb. exact Hk.
  - rewrite IHa, IHb by exact Hk. reflexivity.
  - erewrite (rep_loop_ext (run a)); [apply (rep_loop_none (run a)); exact IHa | |].
    + intros st0 c1 c2 Hc. apply run_ext. exact Hc.
    + intros st' _. apply Hk.
  - apply IHa. intros st'. apply Hk.
  - destruct (m_grp st); [|reflexivity]. destruct (starts_with _ _); auto.
Qed.

(** A pattern that cannot match the empty string does not match at the
    end of the text. *)
Lemma match_at_end (r : re) (pos : nat) :
  (1 <= min_len r)%nat -> match_at r pos [] = None.
Proof.
  intros Hmin. rewrite <- (advancing_same r pos [] Hmin).
  rewrite (run_ext r _ (advancing pos) (fun _ => None)).
  - apply run_none. reflexivity.
  - intros m [Hpos Hahead]. unfold advancing, ahead in *. simpl in *.
    destruct (Nat.ltb_spec pos (m_pos m)); [lia | reflexivity].
Qed.

Lemma sub_loop_shortens (r : re) (rest : str) :
  (1 <= min_len r)%nat ->
  forall pos m,
    search_from r pos rest = Some m ->
    (length (sub_loop r pos 0 rest) < length rest)%nat.
Proof.
  intros Hmin. induction rest as [|c t IH]; intros pos m Hs;
    cbn [search_from] in Hs.
  - rewrite match_at_end in Hs by exact Hmin. discriminate.
  - cbn [sub_loop]. rewrite advancing_same by exact Hmin.
    destruct (match_at r pos (c :: t)) as [m'|].
    + pose proof (sub_loop_length r t (S pos) (m_pos m' - pos - 1)).
      simpl. lia.
    + simpl. apply IH in Hs. lia.
Qed.

(** For such a pattern, substitution leaves the text alone exactly when
    the pattern matches nowhere in it. *)
Lemma re_sub_fixed_iff (r : re) (s : str) :
  (1 <= min_len r)%nat ->
  re_sub r s = s <-> re_search r s = None.
Proof.
  intros Hmin. split; [|apply re_sub_no_match].
  intros Hfix. destruct (re_search r s) as [m|] eqn:Hs; [|reflexivity].
  apply (sub_loop_shortens r s Hmin) in Hs.
  unfold re_sub in Hfix. rewrite Hfix in Hs. lia.
Qed.

Lemma sublist_same_length {A} (l1 l2 : list A) :
  sublist l1 l2 -> (length l2 <= length l1)%nat -> l1 = l2.
Proof.
  induction 1 as [|x l1 l2 Hsub IH|x l1 l2 Hsub IH]; simpl; intros Hlen.
  - reflexivity.
  - f_equal. apply IH. lia.
  - apply sublist_length in Hsub. lia.
Qed.

(** Two substitutions in a row leave the text alone only if each does. *)
Lemma re_sub_chain_fixed (r : re) (f : str -> str) (t : str) :
  (forall x, sublist (f x) x) ->
  f (re_sub r t) = t -> re_sub r t = t /\ f t = t.
Proof.
  intros Hf Hfix.
  assert (Hr : re_sub r t = t).
  { apply sublist_same_length; [apply re_sub_sublist|].
    pose proof (sublist_length _ _ (Hf (re_sub r t))) as Hl.
    rewrite Hfix in Hl. exact Hl. }
  split; [exact Hr|]. rewrite Hr in Hfix. exact Hfix.
Qed.

Lemma strip_level_fixed_iff (t : str) :
  strip_level t = t <->
  re_search FP_FILTER_PREFIX_1 t = None /\
  re_search FP_FILTER_SUFFIX_1 t = None /\
  re_search FP_FILTER_REP_CHARS_1 t = None /\
  re_search FP_FILTER_REP_CHARS_2 t = None.
Proof.
  unfold strip_level. cbn [fold_left].
  rewrite <- (re_sub_fixed_iff FP_FILTER_PREFIX_1) by (vm_compute; lia).
  rewrite <- (re_sub_fixed_iff FP_FILTER_SUFFIX_1) by (vm_compute; lia).
  rewrite <- (re_sub_fixed_iff FP_FILTER_REP_CHARS_1) by (vm_compute; lia).
  rewrite <- (re_sub_fixed_iff FP_FILTER_REP_CHARS_2) by (vm_compute; lia).
  split.
  - intros H.
    apply (re_sub_chain_fixed FP_FILTER_PREFIX_1
             (fun x => re_sub FP_FILTER_REP_CHARS_2
                         (re_sub FP_FILTER_REP_CHARS_1
                            (re_sub FP_FILTER_SUFFIX_1 x)))) in H as [H1 H].
    2:{ intros x. etransitivity; [apply re_sub_sublist|].
        etransitivity; apply re_sub_sublist. }
    apply (re_sub_chain_fixed FP_FILTER_SUFFIX_1
             (fun x => re_sub FP_FILTER_REP_CHARS_2
                         (re_sub FP_FILTER_REP_CHARS_1 x))) in H as [H2 H].
    2:{ intros x. etransitivity; apply re_sub_sublist. }
    apply (re_sub_chain_fixed FP_FILTER_REP_CHARS_1
             (fun x => re_sub FP_FILTER_REP_CHARS_2 x)) in H as [H3 H4].
    2:{ intros x. apply re_sub_sublist. }
    auto.
  - intros (H1 & H2 & H3 & H4). rewrite H1, H2, H3, H4. reflexivity.
Qed.

Lemma strip_level_sublist (s : str) : sublist (strip_level s) s.
Proof. apply fold_sub_sublist. Qed.

Lemma strict_level_sublist (s : str) : sublist (strict_level s) s.
Proof. apply fold_sub_sublist. Qed.

Lemma strict_level_eq (s : str) :
  strict_level s = List.filter plain (re_sub FP_FILTER_STRICT_KNOWN_FP s).
Proof. unfold strict_level. simpl. apply re_sub_special_chars. Qed.

Lemma filter_all {A} (f : A -> bool) (l : list A) :
  (forall x, In x l -> f x = true) -> List.filter f l = l.
Proof.
  induction l as [|x l IH]; intros H; simpl; [reflexivity|].
  rewrite (H x) by (left; reflexivity). f_equal.
  apply IH. intros y Hy. apply H. right. exact Hy.
Qed.

(** What the filter returns when the gate of the strict level is open for
    it again is made of plain characters. *)
Lemma gated_result_is_plain (s : str) :
  strict_gate (strip_string s) = true ->
  forall c, In c (strip_string s) -> plain c = true.
Proof.
  unfold strip_string.
  destruct (strict_gate (strip_level s)) eqn:Hgate.
  - intros _ c Hc. rewrite strict_level_eq in Hc. apply filter_In in Hc. tauto.
  - intros Hgate'. congruence.
Qed.

(** C4, amended: filtering twice gives what filtering once gives exactly
    for the inputs whose filtered text is settled: none of the four
    strip-level patterns matches anywhere in it and, if it passes the gate
    of the strict level, [^O.*A$] does not match it.  For every other
    input the second pass removes something more. *)
Theorem strip_string_idempotent_iff (s : str) :
  strip_string (strip_string s) = strip_string s <-> settled (strip_string s).
Proof.
  unfold settled.
  assert (Hiff : forall t,
    (forall c, strict_gate t = true -> In c t -> plain c = true) ->
    strip_string t = t <->
    strip_level t = t /\
    (strict_gate t = true -> re_search FP_FILTER_STRICT_KNOWN_FP t = None)).
  { intros t Hplain. split.
    - intros Hfix.
      assert (Hlevel : strip_level t = t).
      { apply sublist_same_length; [apply strip_level_sublist|].
        unfold strip_string in Hfix.
        destruct (strict_gate (strip_level t)).
        + pose proof (sublist_length _ _ (strict_level_sublist (strip_level t))) as Hl.
          rewrite Hfix in Hl. exact Hl.
        + rewrite Hfix. lia. }
      split; [exact Hlevel|]. intros Hgate.
      unfold strip_string in Hfix. rewrite Hlevel, Hgate in Hfix.
      apply (re_sub_fixed_iff FP_FILTER_STRICT_KNOWN_FP); [vm_compute; lia|].
      apply sublist_same_length; [apply re_sub_sublist|].
      rewrite strict_level_eq in Hfix.
      pose proof (sublist_length _ _
        (sublist_bool_filter plain (re_sub FP_FILTER_STRICT_KNOWN_FP t))) as Hl.
      rewrite Hfix in Hl. exact Hl.
    - intros [Hlevel Hknown]. unfold strip_string. rewrite Hlevel.
      destruct (strict_gate t) eqn:Hgate; [|reflexivity].
      rewrite strict_level_eq, (re_sub_no_match _ _ (Hknown eq_refl)).
      apply filter_all. intros c Hc. apply (Hplain c eq_refl Hc). }
  rewrite (Hiff (strip_string s)), strip_level_fixed_iff.
  - tauto.
  - intros c Hgate Hc. apply (gated_result_is_plain s Hgate c Hc).
Qed.

(** A text that matches [^O.*A$] but is too long for the strict level is
    left as it is, and so is the stripped "HelloWorld". *)
Example strip_string_settled_examples :
  strip_string (lit "OabcdefA") = lit "OabcdefA" /\
  strip_string (strip_string (lit "pVAHelloWorld")) =
    strip_string (lit "pVAHelloWorld").
Proof. vm_compute. split; reflexivity. Qed.

(** ** The output of the repair pass, element by element *)

Section RepairExact.

Variable extract_string : bytes -> b2s_string.

(** The elements gathered so far are handed through. *)
Lemma fix_loop_acc (min_length : Z) (buffer : bytes) (strings : list b2s_string) :
  forall acc last,
    fix_loop extract_string strings min_length buffer acc last =
    match fix_loop extract_string strings min_length buffer [] last with
    | Ok out => Ok (acc ++ out)
    | Raise e => Raise e
    end.
Proof.
  induction strings as [|string strings IH]; intros acc last; cbn [fix_loop].
  - rewrite app_nil_r. reflexivity.
  - destruct (String.eqb (kind_of string) "WIDE_STRING").
    + destruct (encode_utf16le_ignore (text_of string)) as [|sd0 sd]; [reflexivity|].
      destruct (N.eqb sd0 0); apply IH.
    + rewrite IH. rewrite (IH ([] ++ _)).
      destruct (fix_loop extract_string strings min_length buffer [] None);
        [|reflexivity].
      rewrite <- app_assoc. reflexivity.
Qed.

(** A run of wide results only changes the pending fix-up. *)
Lemma fix_loop_wide_run (min_length : Z) (buffer : bytes) (rest : list b2s_string)
    (ws : list b2s_string) :
  Forall (fun w => is_wide w = true) ws ->
  forall acc last_fixup out,
    fix_loop extract_string (ws ++ rest) min_length buffer acc last_fixup = Ok out ->
    fix_loop extract_string rest min_length buffer acc
      (match last (List.filter first_byte_zero ws) with
       | Some w =>
           long_enough min_length (rescan extract_string buffer (fst (span_of w)))
       | None => last_fixup
       end) = Ok out.
Proof.
  induction 1 as [|w ws Hw Hws IH]; intros acc last0 out; [auto|].
  cbn [app fix_loop List.filter]. unfold is_wide in Hw. rewrite Hw.
  unfold first_byte_zero at 1.
  destruct (encode_utf16le_ignore (text_of w)) as [|sd0 sd]; [discriminate|].
  destruct (N.eqb sd0 0).
  - intros Hrun. apply IH in Hrun. cbn [last].
    destruct (List.filter first_byte_zero ws) as [|x xs] eqn:Hf.
    + exact Hrun.
    + change (last (w :: x :: xs)) with (last (x :: xs)).
      destruct (last (x :: xs)) eqn:Hl; [exact Hrun|].
      apply last_None in Hl. discriminate.
  - apply IH.
Qed.

(** C10, amended: the output has one element for each result that is not
    wide, in the order of the input.  For a result [u] that is not wide,
    preceded by the wide results [ws] since the start or since the result
    before it, the element is the fix-up pending after [ws] when the text
    of [u] occurs in its text, and [u] itself otherwise; the pass then
    goes on with the rest as from the start.  A wide result is never
    copied, a fix-up still pending at the end is dropped, and the output
    holds a [WIDE_STRING] only when the scan behind a fix-up reports
    one. *)
Theorem repair_output_exact (strings : list b2s_string) (min_length : Z)
    (buffer : bytes) (out : list b2s_string) :
  fix_b2s_wide_strings extract_string strings min_length buffer = Ok out ->
  (forall ws u rest,
     strings = ws ++ u :: rest ->
     Forall (fun w => is_wide w = true) ws -> is_wide u = false ->
     exists out',
       out = emitted_for (pending extract_string min_length buffer ws) u :: out' /\
       fix_b2s_wide_strings extract_string rest min_length buffer = Ok out') /\
  (Forall (fun w => is_wide w = true) strings -> out = []) /\
  length out = length (List.filter (fun x => negb (is_wide x)) strings) /\
  Forall (origin extract_string strings min_length buffer) out /\
  ((forall b, is_wide (extract_string b) = false) ->
   Forall (fun x => is_wide x = false) out).
Proof.
  intros Hrun. unfold fix_b2s_wide_strings in *.
  split; [|split].
  - intros ws u rest -> Hws Hu.
    apply (fix_loop_wide_run min_length buffer (u :: rest) ws Hws) in Hrun.
    cbn [fix_loop] in Hrun. unfold is_wide in Hu. rewrite Hu in Hrun.
    rewrite fix_loop_acc in Hrun.
    destruct (fix_loop extract_string rest min_length buffer [] None) as [out'|];
      [|discriminate].
    injection Hrun as <-. exists out'. split; [|reflexivity].
    unfold emitted_for, pending. reflexivity.
  - intros Hall. rewrite <- (app_nil_r strings) in Hrun.
    apply (fix_loop_wide_run min_length buffer [] strings Hall) in Hrun.
    cbn [fix_loop] in Hrun. congruence.
  - apply (fix_loop_output extract_string strings) in Hrun
      as (out' & -> & Hlen & Hfrom); [| auto | discriminate].
    simpl. split; [exact Hlen|]. split; [exact Hfrom|].
    intros Hscan. eapply Forall_impl; [exact Hfrom|]. simpl.
    intros x [[_ Hx] | (w & _ & _ & _ & -> & _)]; [exact Hx|].
    unfold is_wide, rescan, kind_of in *. simpl. apply Hscan.
Qed.

End RepairExact.

Lemma repair_output_exact_witness :
  exists out',
    [abcd_wide] =
      emitted_for
        (pending scan_one 2 wide_buffer
           [([0x6100; 0x6200; 0x6300; 0x6400]%N, "WIDE_STRING"%string, (0, 8), true)])
        (lit "bc", "UTF8"%string, (10, 12), true) :: out' /\
    fix_b2s_wide_strings scan_one [] 2 wide_buffer = Ok out'.
Proof.
  apply (proj1 (repair_output_exact scan_one wide_results 2 wide_buffer [abcd_wide]
                  ltac:(vm_compute; reflexivity))).
  - reflexivity.
  - constructor; [reflexivity | constructor].
  - reflexivity.
Defined.

(** ** What the blob engine swallows *)

Section BlobEngineFacts.

Variable PE : Type.
Variable ImageBase : PE -> Z.
Variable Machine : PE -> Z.
Variable get_rdata_section : PE -> option SectionHeader.
Variable extract_all_strings : bytes -> Z -> list b2s_string.
Variable extract_string : bytes -> b2s_string.
Variable struct_string_addrs : PE -> list Z.
Variable find_lea_xrefs : PE -> list Z.
Variable find_push_xrefs : PE -> list Z.
Variable find_mov_xrefs : PE -> list Z.


End BlobEngineFacts.


